(** * Mouth Trap: a shallow embedding of the game core

    The game (a Flappy-Bird style canvas game) keeps its whole state in a
    handful of closure variables that are read and written by [flap],
    [resetGame], [spawnPipe], [update] and [gameLoop].  The embedding turns
    those variables into one record, [World], and every function into a
    pure function on it.

    Numbers.  A JavaScript number is modelled by an exact rational [Q]; the
    literals [0.45] and [2.6] stand for 9/20 and 13/5.  Rounding to binary64
    is therefore not part of the model (the one scenario with concrete
    numbers is also run in binary64, see [scenario_binary64]), and neither
    are [NaN] and the infinities, except in the one place where the
    program can receive them from outside: the start-up read of the best
    score, whose result has type [JsNum].  [Math.random()] is an input:
    the two draws a spawn consumes are arguments of [spawnPipe] and
    [update]. *)

From Stdlib Require Import PrimFloat.
From Stdlib Require Import ZArith QArith Qround Qminmax Lqa Lia.
From Stdlib Require Import Bool List String Ascii Sorted.
From Stdlib Require Import Decimal DecimalString DecimalPos DecimalN DecimalZ.
Import ListNotations.

Local Open Scope Q_scope.

(** ** Comparison and remainder on numbers *)

(** [a < b] as the boolean test of the source; [a > b] is [Qltb b a]. *)
Definition Qltb (a b : Q) : bool := negb (Qle_bool b a).

(** Truncation toward zero, as used by the [%] operator. *)
Definition Qtrunc (q : Q) : Z := Z.quot (Qnum q) (Zpos (Qden q)).

(** [a % b]: the remainder has the sign of the dividend.  For [b = 0] the
    language gives [NaN]; [resizeCanvas] keeps [canvas.width >= 320], so the
    only divisor the program uses is never zero. *)
Definition Qrem (a b : Q) : Q := a - b * inject_Z (Qtrunc (a / b)).

(** ** Game constants *)

Definition GRAVITY : Q := 9 # 20.
Definition FLAP_STRENGTH : Q := - (15 # 2).
Definition PIPE_GAP_MIN : Q := 140.
Definition PIPE_GAP_MAX : Q := 200.
Definition PIPE_WIDTH : Q := 70.
Definition PIPE_INTERVAL_MS : Q := 1400.
Definition SCROLL_SPEED : Q := 13 # 5.
Definition MOUTH_SIZE : Q := 32.
Definition GROUND_HEIGHT : Q := 80.

(** ** Data model *)

Record Canvas : Type := mkCanvas { width : Q; height : Q }.

(** One obstacle, as pushed by [spawnPipe]. *)
Module Pipe.

Record t : Type := mk
  { x : Q; width : Q; topHeight : Q; gap : Q; passed : bool }.

Definition set_x (v : Q) (p : t) : t :=
  mk v (width p) (topHeight p) (gap p) (passed p).

Definition set_passed (b : bool) (p : t) : t :=
  mk (x p) (width p) (topHeight p) (gap p) b.

End Pipe.

(** [localStorage]: the sequence of stored pairs, newest first. [getItem]
    returns the newest value stored under the key, [setItem] adds a pair. *)
Definition Storage : Type := list (string * string).

Fixpoint getItem (key : string) (st : Storage) : option string :=
  match st with
  | [] => None
  | (k, v) :: rest => if String.eqb k key then Some v else getItem key rest
  end.

Definition setItem (key value : string) (st : Storage) : Storage :=
  (key, value) :: st.

Definition BEST_KEY : string := "mouth_trap_best".

(** The closure variables of the game, with the canvas and the storage. *)
Record World : Type := mkWorld
  { canvas : Canvas;
    mouthY : Q;
    mouthX : Q;
    mouthVelY : Q;
    pipes : list Pipe.t;
    lastPipeAt : Q;
    score : Z;
    best : Q;
    isRunning : bool;
    isGameOver : bool;
    lastTimestamp : Q;
    backgroundOffset : Q;
    localStorage : Storage }.

Definition set_canvas (v : Canvas) (w : World) : World :=
  mkWorld v (mouthY w) (mouthX w) (mouthVelY w) (pipes w) (lastPipeAt w)
    (score w) (best w) (isRunning w) (isGameOver w) (lastTimestamp w)
    (backgroundOffset w) (localStorage w).
Definition set_mouthY (v : Q) (w : World) : World :=
  mkWorld (canvas w) v (mouthX w) (mouthVelY w) (pipes w) (lastPipeAt w)
    (score w) (best w) (isRunning w) (isGameOver w) (lastTimestamp w)
    (backgroundOffset w) (localStorage w).
Definition set_mouthX (v : Q) (w : World) : World :=
  mkWorld (canvas w) (mouthY w) v (mouthVelY w) (pipes w) (lastPipeAt w)
    (score w) (best w) (isRunning w) (isGameOver w) (lastTimestamp w)
    (backgroundOffset w) (localStorage w).
Definition set_mouthVelY (v : Q) (w : World) : World :=
  mkWorld (canvas w) (mouthY w) (mouthX w) v (pipes w) (lastPipeAt w)
    (score w) (best w) (isRunning w) (isGameOver w) (lastTimestamp w)
    (backgroundOffset w) (localStorage w).
Definition set_pipes (v : list Pipe.t) (w : World) : World :=
  mkWorld (canvas w) (mouthY w) (mouthX w) (mouthVelY w) v (lastPipeAt w)
    (score w) (best w) (isRunning w) (isGameOver w) (lastTimestamp w)
    (backgroundOffset w) (localStorage w).
Definition set_lastPipeAt (v : Q) (w : World) : World :=
  mkWorld (canvas w) (mouthY w) (mouthX w) (mouthVelY w) (pipes w) v
    (score w) (best w) (isRunning w) (isGameOver w) (lastTimestamp w)
    (backgroundOffset w) (localStorage w).
Definition set_score (v : Z) (w : World) : World :=
  mkWorld (canvas w) (mouthY w) (mouthX w) (mouthVelY w) (pipes w)
    (lastPipeAt w) v (best w) (isRunning w) (isGameOver w) (lastTimestamp w)
    (backgroundOffset w) (localStorage w).
Definition set_best (v : Q) (w : World) : World :=
  mkWorld (canvas w) (mouthY w) (mouthX w) (mouthVelY w) (pipes w)
    (lastPipeAt w) (score w) v (isRunning w) (isGameOver w) (lastTimestamp w)
    (backgroundOffset w) (localStorage w).
Definition set_isRunning (v : bool) (w : World) : World :=
  mkWorld (canvas w) (mouthY w) (mouthX w) (mouthVelY w) (pipes w)
    (lastPipeAt w) (score w) (best w) v (isGameOver w) (lastTimestamp w)
    (backgroundOffset w) (localStorage w).
Definition set_isGameOver (v : bool) (w : World) : World :=
  mkWorld (canvas w) (mouthY w) (mouthX w) (mouthVelY w) (pipes w)
    (lastPipeAt w) (score w) (best w) (isRunning w) v (lastTimestamp w)
    (backgroundOffset w) (localStorage w).
Definition set_lastTimestamp (v : Q) (w : World) : World :=
  mkWorld (canvas w) (mouthY w) (mouthX w) (mouthVelY w) (pipes w)
    (lastPipeAt w) (score w) (best w) (isRunning w) (isGameOver w) v
    (backgroundOffset w) (localStorage w).
Definition set_backgroundOffset (v : Q) (w : World) : World :=
  mkWorld (canvas w) (mouthY w) (mouthX w) (mouthVelY w) (pipes w)
    (lastPipeAt w) (score w) (best w) (isRunning w) (isGameOver w)
    (lastTimestamp w) v (localStorage w).
Definition set_localStorage (v : Storage) (w : World) : World :=
  mkWorld (canvas w) (mouthY w) (mouthX w) (mouthVelY w) (pipes w)
    (lastPipeAt w) (score w) (best w) (isRunning w) (isGameOver w)
    (lastTimestamp w) (backgroundOffset w) v.

(** ** [String(n)] for an integer [n]: its decimal digits, with a leading
    minus sign for a negative one.  (The language switches to exponent
    notation from 10^21 on, far beyond any score.) *)
Definition numberToString (n : Z) : string :=
  NilZero.string_of_int (Z.to_int n).

(** ** [resizeCanvas] *)

Definition resizeCanvas (innerWidth innerHeight : Q) (w : World) : World :=
  let desiredWidth := Qmax 320 (inject_Z (Qfloor innerWidth)) in
  let desiredHeightByAspect := inject_Z (Qfloor ((3 / 2) * desiredWidth)) in
  let maxHeight := innerHeight in
  let desiredHeight := Qmin desiredHeightByAspect maxHeight in
  set_canvas (mkCanvas desiredWidth desiredHeight) w.

(** ** [resetGame] *)

Definition resetGame (w : World) : World :=
  let w := set_mouthY (height (canvas w) / 2) w in
  let w := set_mouthX (width (canvas w) * (28 # 100)) w in
  let w := set_mouthVelY 0 w in
  let w := set_pipes [] w in
  let w := set_lastPipeAt 0 w in
  let w := set_score 0%Z w in
  let w := set_isGameOver false w in
  set_backgroundOffset 0 w.

(** ** [flap]; [now] is the value of [performance.now()]. *)

Definition flap (now : Q) (w : World) : World :=
  let w := if negb (isRunning w)
           then set_lastTimestamp now (set_isRunning true w)
           else w in
  if isGameOver w then resetGame w
  else set_mouthVelY FLAP_STRENGTH w.

(** ** [spawnPipe]; [r1] and [r2] are the two [Math.random()] draws, in
    the order in which the function makes them. *)

Definition spawnPipe (r1 r2 : Q) (w : World) : World :=
  let gap := PIPE_GAP_MIN + r1 * (PIPE_GAP_MAX - PIPE_GAP_MIN) in
  let topLimit := 40 in
  let bottomLimit := height (canvas w) - GROUND_HEIGHT - 40 - gap in
  let topHeight := topLimit + r2 * (bottomLimit - topLimit) in
  let x := width (canvas w) + PIPE_WIDTH in
  set_pipes (pipes w ++ [Pipe.mk x PIPE_WIDTH topHeight gap false]) w.

(** ** [rectsOverlap] *)

Definition rectsOverlap (ax ay aw ah bx by_ bw bh : Q) : bool :=
  Qltb ax (bx + bw) && Qltb bx (ax + aw)
  && Qltb ay (by_ + bh) && Qltb by_ (ay + ah).

(** ** [update]

    The body of [update] after the [isGameOver] guard, in the order of the
    source: physics with the two clamps, background scroll, the loop over
    the obstacles, the spawn timer. *)

(** "Physics" and "Ground and ceiling". *)
Definition physics (w : World) : World :=
  let w := set_mouthVelY (mouthVelY w + GRAVITY) w in
  let w := set_mouthY (mouthY w + mouthVelY w) w in
  let w := if Qltb (mouthY w) 0
           then set_mouthVelY 0 (set_mouthY 0 w)
           else w in
  let groundY := height (canvas w) - GROUND_HEIGHT - MOUTH_SIZE in
  if Qltb groundY (mouthY w)
  then set_isGameOver true (set_mouthY groundY w)
  else w.

(** The scoring branch: [score++], then the best score and its write. *)
Definition scorePoint (w : World) : World :=
  let w := set_score (score w + 1)%Z w in
  if Qltb (best w) (inject_Z (score w))
  then
    let w := set_best (inject_Z (score w)) w in
    set_localStorage
      (setItem BEST_KEY (numberToString (score w)) (localStorage w)) w
  else w.

(** The two collision tests of one obstacle against the player. *)
Definition collides (w : World) (p : Pipe.t) : bool :=
  let mouthTop := mouthY w in
  let topRectCollide :=
    rectsOverlap (mouthX w) mouthTop MOUTH_SIZE MOUTH_SIZE
      (Pipe.x p) 0 (Pipe.width p) (Pipe.topHeight p) in
  let bottomRectCollide :=
    rectsOverlap (mouthX w) mouthTop MOUTH_SIZE MOUTH_SIZE
      (Pipe.x p) (Pipe.topHeight p + Pipe.gap p) (Pipe.width p)
      (height (canvas w) - GROUND_HEIGHT - (Pipe.topHeight p + Pipe.gap p)) in
  topRectCollide || bottomRectCollide.

(** One iteration of the loop, on obstacle [p]: [None] is the [splice]
    followed by [continue], [Some p'] the obstacle as the iteration leaves
    it in the array. *)
Definition pipeIteration (p : Pipe.t) (w : World) : option Pipe.t * World :=
  let p := Pipe.set_x (Pipe.x p - SCROLL_SPEED) p in
  if Qltb (Pipe.x p + Pipe.width p) (- (10))
  then (None, w)
  else
    let mouthCenter := mouthX w + MOUTH_SIZE / 2 in
    let pipeCenter := Pipe.x p + Pipe.width p / 2 in
    let '(p, w) :=
      if negb (Pipe.passed p) && Qltb pipeCenter mouthCenter
      then (Pipe.set_passed true p, scorePoint w)
      else (p, w) in
    let w := if collides w p then set_isGameOver true w else w in
    (Some p, w).

(** The loop [for (i = pipes.length - 1; i >= 0; i--)]: the obstacles
    behind the head of the list have the higher indices and are visited
    first; a removed obstacle leaves the lower indices as they are. *)
Fixpoint pipesLoop (ps : list Pipe.t) (w : World) : list Pipe.t * World :=
  match ps with
  | [] => ([], w)
  | p :: rest =>
      let '(rest', w) := pipesLoop rest w in
      match pipeIteration p w with
      | (None, w) => (rest', w)
      | (Some p', w) => (p' :: rest', w)
      end
  end.

Definition update (dt r1 r2 : Q) (w : World) : World :=
  if isGameOver w then w
  else
    let w := physics w in
    let w := set_backgroundOffset
               (Qrem (backgroundOffset w + SCROLL_SPEED) (width (canvas w)))
               w in
    let '(ps, w) := pipesLoop (pipes w) w in
    let w := set_pipes ps w in
    let w := set_lastPipeAt (lastPipeAt w + dt) w in
    if Qltb PIPE_INTERVAL_MS (lastPipeAt w)
    then set_lastPipeAt 0 (spawnPipe r1 r2 w)
    else w.

(** ** [gameLoop]: the frame callback, without its drawing and its
    rescheduling. *)
Definition gameLoop (timestamp r1 r2 : Q) (w : World) : World :=
  let dt := Qmin 50 (timestamp - lastTimestamp w) in
  let w := set_lastTimestamp timestamp w in
  update dt r1 r2 w.

(** ** Events and runs

    What can happen to the world between two frames: a frame, an
    "activate" input, a resize of the window. *)
Inductive Event : Type :=
| Frame (timestamp r1 r2 : Q)
| Activate (now : Q)
| Resize (innerWidth innerHeight : Q).

Definition step (e : Event) (w : World) : World :=
  match e with
  | Frame ts r1 r2 => gameLoop ts r1 r2 w
  | Activate now => flap now w
  | Resize iw ih => resizeCanvas iw ih w
  end.

Fixpoint run (es : list Event) (w : World) : World :=
  match es with
  | [] => w
  | e :: es' => run es' (step e w)
  end.

(** [n] calls of [update] with the same arguments. *)
Fixpoint ticks (n : nat) (dt r1 r2 : Q) (w : World) : World :=
  match n with
  | O => w
  | S n' => ticks n' dt r1 r2 (update dt r1 r2 w)
  end.

(** ** The start-up read of the best score

    [Number(localStorage.getItem('mouth_trap_best') || 0)].  The stored
    text comes from outside the program, so here the result keeps the
    values a conversion can give besides a finite number. *)

Inductive JsNum : Type :=
| JNaN
| JInfinity (negative : bool)
| JFinite (q : Q).

Definition jsNegate (v : JsNum) : JsNum :=
  match v with
  | JNaN => JNaN
  | JInfinity s => JInfinity (negb s)
  | JFinite q => JFinite (- q)
  end.

(** White space and line terminators, among the ASCII characters. *)
Definition isWhiteSpace (c : ascii) : bool :=
  let n := N_of_ascii c in
  ((9 <=? n) && (n <=? 13))%N || (n =? 32)%N.

Fixpoint trimStart (cs : list ascii) : list ascii :=
  match cs with
  | [] => []
  | c :: rest => if isWhiteSpace c then trimStart rest else cs
  end.

Definition trim (cs : list ascii) : list ascii :=
  List.rev (trimStart (List.rev (trimStart cs))).

(** The value of a digit in a base up to 16. *)
Definition digitValue (base : N) (c : ascii) : option N :=
  let n := N_of_ascii c in
  let v := if ((48 <=? n) && (n <=? 57))%N then Some (n - 48)%N
           else if ((97 <=? n) && (n <=? 102))%N then Some (n - 87)%N
           else if ((65 <=? n) && (n <=? 70))%N then Some (n - 55)%N
           else None in
  match v with
  | Some d => if (d <? base)%N then Some d else None
  | None => None
  end.

Definition isDigit (c : ascii) : bool :=
  match digitValue 10 c with Some _ => true | None => false end.

(** The value of a sequence of digits, read from the left. *)
Fixpoint digitsValue (base acc : N) (cs : list ascii) : option N :=
  match cs with
  | [] => Some acc
  | c :: rest =>
      match digitValue base c with
      | Some d => digitsValue base (acc * base + d)%N rest
      | None => None
      end
  end.

(** The longest prefix of decimal digits, and what follows it. *)
Fixpoint spanDigits (cs : list ascii) : list ascii * list ascii :=
  match cs with
  | [] => ([], [])
  | c :: rest =>
      if isDigit c
      then let '(ds, r) := spanDigits rest in (c :: ds, r)
      else ([], cs)
  end.

Definition isEmpty (cs : list ascii) : bool :=
  match cs with [] => true | _ :: _ => false end.

(** [0x..], [0o..], [0b..]: at least one digit, all of the base. *)
Definition nonDecimalLiteral (base : N) (ds : list ascii) : JsNum :=
  if isEmpty ds then JNaN
  else match digitsValue base 0 ds with
       | Some v => JFinite (inject_Z (Z.of_N v))
       | None => JNaN
       end.

(** The exponent part, if any, must be all that is left. *)
Definition exponentPart (cs : list ascii) : option Z :=
  match cs with
  | [] => Some 0%Z
  | c :: rest =>
      if Ascii.eqb c "e" || Ascii.eqb c "E"
      then
        let '(neg, ds) :=
          match rest with
          | s :: r => if Ascii.eqb s "-" then (true, r)
                      else if Ascii.eqb s "+" then (false, r)
                      else (false, rest)
          | [] => (false, rest)
          end in
        if isEmpty ds then None
        else match digitsValue 10 0 ds with
             | Some v => Some (if neg then - Z.of_N v else Z.of_N v)%Z
             | None => None
             end
      else None
  end.

(** An unsigned decimal literal: [Infinity], or digits with an optional
    fraction and an optional exponent, with a digit on at least one side
    of the point. *)
Definition unsignedDecimalLiteral (cs : list ascii) : JsNum :=
  if String.eqb (string_of_list_ascii cs) "Infinity" then JInfinity false
  else
    let '(ip, r1) := spanDigits cs in
    let '(fp, r2) :=
      match r1 with
      | c :: r => if Ascii.eqb c "." then spanDigits r else ([], r1)
      | [] => ([], r1)
      end in
    if isEmpty ip && isEmpty fp then JNaN
    else
      match digitsValue 10 0 (ip ++ fp), exponentPart r2 with
      | Some m, Some e =>
          JFinite (inject_Z (Z.of_N m)
                   * 10 ^ (e - Z.of_nat (List.length fp)))
      | _, _ => JNaN
      end.

(** The conversion of a string to a number: white space around the
    literal is dropped, the empty literal is 0, a literal that is not
    well formed is [NaN]. *)
Definition StringToNumber (s : string) : JsNum :=
  match trim (list_ascii_of_string s) with
  | [] => JFinite 0
  | c :: rest =>
      let prefixed (lo up : ascii) :=
        Ascii.eqb c "0" &&
        match rest with
        | m :: _ => Ascii.eqb m lo || Ascii.eqb m up
        | [] => false
        end in
      if prefixed "x"%char "X"%char then nonDecimalLiteral 16 (tl rest)
      else if prefixed "o"%char "O"%char then nonDecimalLiteral 8 (tl rest)
      else if prefixed "b"%char "B"%char then nonDecimalLiteral 2 (tl rest)
      else if Ascii.eqb c "+" then unsignedDecimalLiteral rest
      else if Ascii.eqb c "-" then jsNegate (unsignedDecimalLiteral rest)
      else unsignedDecimalLiteral (c :: rest)
  end.

(** [value || 0] keeps a stored string unless it is absent ([null]) or
    empty; [Number] then converts what is left. *)
Definition initialBest (st : Storage) : JsNum :=
  match getItem BEST_KEY st with
  | None => JFinite 0
  | Some s => if String.eqb s "" then JFinite 0 else StringToNumber s
  end.

(** The closure variables as their declarations initialise them, on the
    canvas [cv] and the storage [st]; [b] is the value of the start-up
    read when it is a finite number. *)
Definition initialWorld (cv : Canvas) (b : Q) (st : Storage) : World :=
  mkWorld cv (height cv / 2) (width cv * (28 # 100)) 0 [] 0 0%Z b
    false false 0 0 st.

(** ** Vocabulary of the properties

    The loop of [update] works on one obstacle at a time and threads the
    score through; the properties below speak of that loop through the
    following views of it, each proved equal to what the loop does. *)

(** The horizontal centres compared by the scoring test. *)
Definition mouthCenter (w : World) : Q := mouthX w + MOUTH_SIZE / 2.
Definition pipeCenter (p : Pipe.t) : Q := Pipe.x p + Pipe.width p / 2.

(** An obstacle moved left by one tick of scrolling. *)
Definition advance (p : Pipe.t) : Pipe.t :=
  Pipe.set_x (Pipe.x p - SCROLL_SPEED) p.

(** The removal test, on an obstacle that has been moved. *)
Definition offScreen (p : Pipe.t) : bool :=
  Qltb (Pipe.x p + Pipe.width p) (- (10)).

Definition onScreen (p : Pipe.t) : bool := negb (offScreen p).

(** The scoring test, on an obstacle that has been moved and kept: it
    has not been passed yet and its centre is left of the player's. *)
Definition crossing (mc : Q) (p : Pipe.t) : bool :=
  negb (Pipe.passed p) && Qltb (pipeCenter p) mc.

Definition markPassed (mc : Q) (p : Pipe.t) : Pipe.t :=
  if crossing mc p then Pipe.set_passed true p else p.

(** The obstacles a tick keeps, in their order, as it leaves them. *)
Definition survivors (mc : Q) (ps : list Pipe.t) : list Pipe.t :=
  map (markPassed mc) (filter onScreen (map advance ps)).

(** The obstacles whose [passed] flag a tick turns from false to true. *)
Definition flipped (mc : Q) (ps : list Pipe.t) : list Pipe.t :=
  filter (crossing mc) (filter onScreen (map advance ps)).



(** What the loop over the obstacles never writes. *)
Definition loopFrame (w : World) :=
  (canvas w, mouthY w, mouthX w, mouthVelY w, pipes w, lastPipeAt w,
   isRunning w, lastTimestamp w, backgroundOffset w).

(** The part of the world that a frozen game keeps. *)
Definition gameState (w : World) :=
  (mouthY w, mouthX w, mouthVelY w, pipes w, score w, best w,
   lastPipeAt w, backgroundOffset w, isGameOver w, localStorage w).

Definition isActivate (e : Event) : bool :=
  match e with Activate _ => true | _ => false end.

(** No event of the sequence restarts the game: every "activate" finds
    the game running. *)
Fixpoint noRestart (es : list Event) (w : World) : bool :=
  match es with
  | [] => true
  | e :: es' =>
      negb (isActivate e && isGameOver w) && noRestart es' (step e w)
  end.

(** The highest score among the worlds a sequence of events visits, the
    first one included. *)
Fixpoint maxScore (es : list Event) (w : World) : Z :=
  match es with
  | [] => score w
  | e :: es' => Z.max (score w) (maxScore es' (step e w))
  end.

(** A write to the storage happened between [w] and [w']. *)
Definition wrote (w w' : World) : Prop :=
  (List.length (localStorage w) < List.length (localStorage w'))%nat.

(** The three variables of the scoring branch. *)
Definition scoring (w : World) := (score w, best w, localStorage w).

(** How score, best score and storage of [w'] stand to those of an
    earlier [w] when only scoring branches ran in between. *)
Definition Tally (w w' : World) : Prop :=
  (score w <= score w')%Z
  /\ best w <= best w'
  /\ (exists news, localStorage w' = news ++ localStorage w)
  /\ (inject_Z (score w) <= best w ->
      inject_Z (score w') <= best w'
      /\ best w' == Qmax (best w) (inject_Z (score w'))
      /\ (wrote w w' <-> best w < inject_Z (score w'))
      /\ (wrote w w' ->
          getItem BEST_KEY (localStorage w')
          = Some (numberToString (score w')))).

(** The characters of a decimal numeral. *)
Definition decimalDigits (u : uint) : list ascii :=
  list_ascii_of_string (NilEmpty.string_of_uint u).

(** The length of the common part of the intervals [[lo1, lo1 + len1]]
    and [[lo2, lo2 + len2]]; it is negative when they are apart. *)
Definition overlapLength (lo1 len1 lo2 len2 : Q) : Q :=
  Qmin (lo1 + len1) (lo2 + len2) - Qmax lo1 lo2.

(** A world for the scrolling scenario: a 800 x 1200 canvas, the player
    at rest at mid-height, and one obstacle at [x = 0]. *)
Definition scrollWorld : World :=
  mkWorld (mkCanvas 800 1200) 600 224 0
    [Pipe.mk 0 PIPE_WIDTH 100 150 false]
    0 0%Z 0 true false 0 0 [].

(** The scrolling scenario in binary64, the arithmetic the program
    really runs on: [p.x -= SCROLL_SPEED] applied [n] times, and the
    removal test [p.x + p.width < -10].  The literal is the binary64
    number nearest to 2.6. *)
Fixpoint scrollBinary64 (n : nat) (x : PrimFloat.float) : PrimFloat.float :=
  match n with
  | O => x
  | S n' => scrollBinary64 n' (PrimFloat.sub x 0x1.4cccccccccccdp+1%float)
  end.

Definition offScreenBinary64 (x width : PrimFloat.float) : bool :=
  PrimFloat.ltb (PrimFloat.add x width) (-10)%float.

(** A running world without obstacles: a canvas 800 wide and [h] high,
    the player at height [y] with velocity [v]. *)
Definition playerWorld (h y v : Q) : World :=
  mkWorld (mkCanvas 800 h) y 224 v [] 0 0%Z 0 true false 0 0 [].

(** [scrollWorld] with its obstacle already passed. *)
Definition passedWorld : World :=
  set_pipes [Pipe.mk 0 PIPE_WIDTH 100 150 true] scrollWorld.

(** A world whose game has ended, for the examples. *)
Definition overWorld : World :=
  mkWorld (mkCanvas 800 1200) 1088 224 (27 # 2)
    [Pipe.mk 300 PIPE_WIDTH 100 150 true]
    700 3%Z 5 true true 0 120 [(BEST_KEY, "5"%string)].

(** ** The rest of the program

    The input handlers, the part of [draw] that depends on the game, and
    the loading of the background texture. *)

(** [onKeyDown]; [code] and [key] are the two fields of the event that
    the handler reads. *)
Definition onKeyDown (code key : string) (now : Q) (w : World) : World :=
  if String.eqb code "Space" || String.eqb key " " then flap now w else w.

Definition onPointer (now : Q) (w : World) : World := flap now w.

(** The three listeners: [keydown] on the document, [mousedown] and
    [touchstart] on the canvas. *)
Inductive Input : Type :=
| KeyDown (code key : string)
| MouseDown
| TouchStart.

Definition handle (i : Input) (now : Q) (w : World) : World :=
  match i with
  | KeyDown code key => onKeyDown code key now w
  | MouseDown => onPointer now w
  | TouchStart => onPointer now w
  end.

(** The inputs of a sequence, each with the time at which it arrives. *)
Fixpoint handleAll (ins : list (Input * Q)) (w : World) : World :=
  match ins with
  | [] => w
  | (i, now) :: rest => handleAll rest (handle i now w)
  end.

(** The rotation of the sprite in [draw]. *)
Definition tilt (w : World) : Q :=
  Qmax (- (1 # 2)) (Qmin 1 (mouthVelY w / 9)).

(** The background texture: the image element of [loadBackgroundTexture]
    with its flag, and the two variables its [onload] handler sets.  An
    image is known by the address it was loaded from; [requests] is the
    sequence of addresses assigned to [img.src], newest first, each
    assignment starting a load. *)
Module Texture.

Record t : Type := mk
  { src : string;
    triedJpg : bool;
    bgImg : option string;
    bgPattern : option string;
    requests : list string }.

Definition PNG : string := "backgroundtexture.png".
Definition JPG : string := "backgroundtexture.jpg".

(** The state the function leaves when it returns. *)
Definition start : t := mk PNG false None None [PNG].

(** [img.onload]; [patternOk] tells whether [createPattern] returned
    without throwing. *)
Definition onload (patternOk : bool) (s : t) : t :=
  mk (src s) (triedJpg s) (Some (src s))
     (if patternOk then Some (src s) else None) (requests s).

(** [img.onerror]. *)
Definition onerror (s : t) : t :=
  if negb (triedJpg s)
  then mk JPG true (bgImg s) (bgPattern s) (JPG :: requests s)
  else s.

Inductive event : Type :=
| Load (patternOk : bool)
| Error.

Definition on (e : event) (s : t) : t :=
  match e with
  | Load ok => onload ok s
  | Error => onerror s
  end.

Fixpoint after (es : list event) (s : t) : t :=
  match es with
  | [] => s
  | e :: es' => after es' (on e s)
  end.

End Texture.

(** ** Vocabulary of the further properties *)

Definition isFrame (e : Event) : bool :=
  match e with Frame _ _ _ => true | _ => false end.

Definition isResize (e : Event) : bool :=
  match e with Resize _ _ => true | _ => false end.

(** The lowest position of the player: [groundY] of [update]. *)
Definition groundLimit (cv : Canvas) : Q :=
  height cv - GROUND_HEIGHT - MOUTH_SIZE.

Definition inPlayfield (w : World) : Prop :=
  0 <= mouthY w /\ mouthY w <= groundLimit (canvas w).

(** An input that calls [flap]. *)
Definition activates (i : Input) : bool :=
  match i with
  | KeyDown code key => String.eqb code "Space" || String.eqb key " "
  | MouseDown => true
  | TouchStart => true
  end.

(** The time of the first input of the sequence that calls [flap]. *)
Fixpoint firstActivation (ins : list (Input * Q)) : option Q :=
  match ins with
  | [] => None
  | (i, now) :: rest => if activates i then Some now else firstActivation rest
  end.

(** An obstacle as the program makes and keeps them: of the width of a
    spawned one, not beyond the spawn point on the right, not past the
    removal line on the left. *)
Definition pipeInRange (cv : Canvas) (p : Pipe.t) : Prop :=
  Pipe.width p = PIPE_WIDTH
  /\ - (10) <= Pipe.x p + Pipe.width p
  /\ Pipe.x p <= width cv + PIPE_WIDTH.

(** The obstacles of the array are in range and from left to right. *)
Definition pipesInOrder (cv : Canvas) (ps : list Pipe.t) : Prop :=
  Forall (pipeInRange cv) ps
  /\ StronglySorted (fun p q => Pipe.x p <= Pipe.x q) ps.


(** What is stored under the key reads back as the best score. *)
Definition synced (w : World) : Prop :=
  exists q, initialBest (localStorage w) = JFinite q /\ q == best w.

(** The player overlaps the obstacle horizontally. *)
Definition besidePipe (w : World) (p : Pipe.t) : Prop :=
  mouthX w < Pipe.x p + Pipe.width p /\ Pipe.x p < mouthX w + MOUTH_SIZE.

(** The player is not wholly inside the gap of the obstacle. *)
Definition outsideGap (w : World) (p : Pipe.t) : Prop :=
  mouthY w < Pipe.topHeight p
  \/ Pipe.topHeight p + Pipe.gap p < mouthY w + MOUTH_SIZE.

(** The obstacle [spawnPipe] adds on canvas [cv] with the draws [r1]
    and [r2]. *)
Definition newPipe (cv : Canvas) (r1 r2 : Q) : Pipe.t :=
  let gap := PIPE_GAP_MIN + r1 * (PIPE_GAP_MAX - PIPE_GAP_MIN) in
  let topLimit := 40 in
  let bottomLimit := height cv - GROUND_HEIGHT - 40 - gap in
  Pipe.mk (width cv + PIPE_WIDTH) PIPE_WIDTH
    (topLimit + r2 * (bottomLimit - topLimit)) gap false.

(** The least number of ticks of gravity that make up [x]: 0 when [x]
    is not positive. *)
Definition ticksFor (x : Q) : nat := Z.to_nat (Qceiling (x / GRAVITY)).

(** A number of frames within which a game left alone is over: the ticks
    gravity needs to stop a rise, then those of a fall, at one step of
    gravity a tick at least, from the lowest position the rise can
    reach. *)
Definition framesToGround (w : World) : nat :=
  let rise := ticksFor (- mouthVelY w) in
  let low := mouthY w
             + inject_Z (Z.of_nat rise) * Qmin 0 (mouthVelY w) in
  S (rise + ticksFor (groundLimit (canvas w) - low)).

(** A running world with the obstacle of the collision scenario (top
    height 100, gap 150, at x = 400) and the player at (400, [y]). *)
Definition gapWorld (y : Q) : World :=
  mkWorld (mkCanvas 800 1200) y 400 0
    [Pipe.mk 400 PIPE_WIDTH 100 150 false]
    0 0%Z 0 true false 0 0 [].

(** * Properties *)

(** ** The boolean comparison *)

Lemma Qltb_lt (a b : Q) : Qltb a b = true <-> a < b.
Proof.
  unfold Qltb. rewrite negb_true_iff, <- not_true_iff_false, Qle_bool_iff.
  split; [apply Qnot_le_lt | apply Qlt_not_le].
Qed.

Lemma Qltb_ge (a b : Q) : Qltb a b = false <-> b <= a.
Proof.
  unfold Qltb. rewrite negb_false_iff, Qle_bool_iff. reflexivity.
Qed.

Lemma Qltb_irrefl (a b : Q) : a == b -> Qltb a b = false.
Proof. intros E. apply Qltb_ge. rewrite E. apply Qle_refl. Qed.

(** ** Collision test *)

Lemma overlapLength_pos (lo1 len1 lo2 len2 : Q) :
  0 < len1 -> 0 < len2 ->
  (0 < overlapLength lo1 len1 lo2 len2 <->
   lo1 < lo2 + len2 /\ lo2 < lo1 + len1).
Proof.
  intros H1 H2. unfold overlapLength.
  assert (E : 0 < Qmin (lo1 + len1) (lo2 + len2) - Qmax lo1 lo2 <->
              Qmax lo1 lo2 < Qmin (lo1 + len1) (lo2 + len2))
    by (split; intros; lra).
  rewrite E, Q.max_lub_lt_iff, !Q.min_glb_lt_iff.
  split; intros; repeat split; lra.
Qed.

(** C9. The collision test does not depend on the order of its two
    rectangles: [rectsOverlap] of A and B is [rectsOverlap] of B and A. *)
Theorem rectsOverlap_sym (ax ay aw ah bx by_ bw bh : Q) :
  rectsOverlap ax ay aw ah bx by_ bw bh
  = rectsOverlap bx by_ bw bh ax ay aw ah.
Proof.
  unfold rectsOverlap.
  destruct (Qltb ax (bx + bw)), (Qltb bx (ax + aw)),
           (Qltb ay (by_ + bh)), (Qltb by_ (ay + ah)); reflexivity.
Qed.

(** C6. For two boxes (each of positive width and height),
    [rectsOverlap] is true exactly when the boxes share an interval of
    positive length on the horizontal axis and one on the vertical axis;
    and whenever one box ends where the other begins, on either axis and
    on either side, it is false. *)
Theorem rectsOverlap_positive_overlap (ax ay aw ah bx by_ bw bh : Q) :
  (0 < aw -> 0 < ah -> 0 < bw -> 0 < bh ->
   (rectsOverlap ax ay aw ah bx by_ bw bh = true <->
    0 < overlapLength ax aw bx bw /\ 0 < overlapLength ay ah by_ bh))
  /\ (ax + aw == bx -> rectsOverlap ax ay aw ah bx by_ bw bh = false)
  /\ (ay + ah == by_ -> rectsOverlap ax ay aw ah bx by_ bw bh = false)
  /\ (bx + bw == ax -> rectsOverlap ax ay aw ah bx by_ bw bh = false)
  /\ (by_ + bh == ay -> rectsOverlap ax ay aw ah bx by_ bw bh = false).
Proof.
  unfold rectsOverlap. split; [| repeat split; intros E].
  - intros Haw Hah Hbw Hbh.
    rewrite !andb_true_iff, !Qltb_lt,
      (overlapLength_pos ax aw bx bw Haw Hbw),
      (overlapLength_pos ay ah by_ bh Hah Hbh).
    tauto.
  - rewrite (Qltb_irrefl bx (ax + aw)) by (symmetry; exact E).
    now rewrite andb_false_r.
  - rewrite (Qltb_irrefl by_ (ay + ah)) by (symmetry; exact E).
    now rewrite andb_false_r.
  - rewrite (Qltb_irrefl ax (bx + bw)) by (symmetry; exact E).
    reflexivity.
  - rewrite (Qltb_irrefl ay (by_ + bh)) by (symmetry; exact E).
    now rewrite andb_false_r.
Qed.

(** The boxes of the collision scenario: the player at (400, 50) with
    size 32, and the top barrier, 70 wide and 100 high, at x = 400; and
    two boxes of which the second begins where the first ends. *)
Lemma rectsOverlap_positive_overlap_witness :
  ((0 < 32 /\ 0 < 70 /\ 0 < 100)
   /\ (rectsOverlap 400 50 32 32 400 0 70 100 = true <->
       0 < overlapLength 400 32 400 70 /\ 0 < overlapLength 50 32 0 100))
  /\ (0 + 10 == 10 /\ rectsOverlap 0 0 10 10 10 0 5 5 = false)
  /\ (0 + 10 == 10 /\ rectsOverlap 0 0 10 10 0 10 5 5 = false)
  /\ (0 + 10 == 10 /\ rectsOverlap 10 0 5 5 0 0 10 10 = false)
  /\ (0 + 10 == 10 /\ rectsOverlap 0 10 5 5 0 0 10 10 = false).
Proof.
  assert (E : 0 + 10 == 10) by reflexivity.
  split; [split; [repeat split; reflexivity |] |
          split; [split; [exact E |] |
          split; [split; [exact E |] |
          split; [split; [exact E |] | split; [exact E |]]]]].
  - destruct (rectsOverlap_positive_overlap 400 50 32 32 400 0 70 100)
      as [H _].
    apply H; reflexivity.
  - destruct (rectsOverlap_positive_overlap 0 0 10 10 10 0 5 5)
      as (_ & H & _).
    exact (H E).
  - destruct (rectsOverlap_positive_overlap 0 0 10 10 0 10 5 5)
      as (_ & _ & H & _).
    exact (H E).
  - destruct (rectsOverlap_positive_overlap 10 0 5 5 0 0 10 10)
      as (_ & _ & _ & H & _).
    exact (H E).
  - destruct (rectsOverlap_positive_overlap 0 10 5 5 0 0 10 10)
      as (_ & _ & _ & _ & H).
    exact (H E).
Defined.

(** ** What the loop leaves alone *)

Lemma scorePoint_frame (w : World) :
  loopFrame (scorePoint w) = loopFrame w
  /\ isGameOver (scorePoint w) = isGameOver w.
Proof.
  unfold scorePoint.
  destruct (Qltb _ _); split; reflexivity.
Qed.

Lemma pipeIteration_frame (p : Pipe.t) (w : World) :
  loopFrame (snd (pipeIteration p w)) = loopFrame w.
Proof.
  unfold pipeIteration.
  destruct (Qltb (Pipe.x _ + _) _); [reflexivity |].
  destruct (negb _ && _); cbn [snd].
  - destruct (collides _ _); cbn; apply scorePoint_frame.
  - destruct (collides _ _); reflexivity.
Qed.

Lemma pipesLoop_frame (ps : list Pipe.t) (w : World) :
  loopFrame (snd (pipesLoop ps w)) = loopFrame w.
Proof.
  induction ps as [| p rest IH]; [reflexivity |].
  cbn [pipesLoop].
  destruct (pipesLoop rest w) as [rest' w1]. cbn [snd] in IH.
  pose proof (pipeIteration_frame p w1) as F.
  destruct (pipeIteration p w1) as [[p' |] w2]; cbn [snd] in *; congruence.
Qed.

(** Once set, [isGameOver] is not cleared by the loop. *)
Lemma pipeIteration_over (p : Pipe.t) (w : World) :
  isGameOver w = true -> isGameOver (snd (pipeIteration p w)) = true.
Proof.
  intros H. unfold pipeIteration.
  destruct (Qltb (Pipe.x _ + _) _); [exact H |].
  destruct (negb _ && _); cbn [snd];
    destruct (collides _ _); cbn; try reflexivity; try exact H.
  now rewrite (proj2 (scorePoint_frame w)).
Qed.

Lemma pipesLoop_over (ps : list Pipe.t) (w : World) :
  isGameOver w = true -> isGameOver (snd (pipesLoop ps w)) = true.
Proof.
  intros H. induction ps as [| p rest IH]; [exact H |].
  cbn [pipesLoop].
  destruct (pipesLoop rest w) as [rest' w1]. cbn [snd] in IH.
  pose proof (pipeIteration_over p w1 IH) as F.
  destruct (pipeIteration p w1) as [[p' |] w2]; exact F.
Qed.

(** [update] on a running game, as the sequence of its four parts. *)
Lemma update_running (dt r1 r2 : Q) (w : World) :
  isGameOver w = false ->
  update dt r1 r2 w =
  let w1 := physics w in
  let w2 := set_backgroundOffset
              (Qrem (backgroundOffset w1 + SCROLL_SPEED) (width (canvas w1)))
              w1 in
  let w3 := set_pipes (fst (pipesLoop (pipes w2) w2))
              (snd (pipesLoop (pipes w2) w2)) in
  let w4 := set_lastPipeAt (lastPipeAt w3 + dt) w3 in
  if Qltb PIPE_INTERVAL_MS (lastPipeAt w4)
  then set_lastPipeAt 0 (spawnPipe r1 r2 w4)
  else w4.
Proof.
  intros H. unfold update. rewrite H. cbv zeta.
  destruct (pipesLoop _ _) as [ps w3]. reflexivity.
Qed.

(** The player's position and velocity after [update] are those the
    physics step computed. *)
Lemma update_player (dt r1 r2 : Q) (w : World) :
  isGameOver w = false ->
  mouthY (update dt r1 r2 w) = mouthY (physics w)
  /\ mouthVelY (update dt r1 r2 w) = mouthVelY (physics w)
  /\ mouthX (update dt r1 r2 w) = mouthX w
  /\ canvas (update dt r1 r2 w) = canvas w
  /\ (isGameOver (physics w) = true -> isGameOver (update dt r1 r2 w) = true).
Proof.
  intros H. rewrite (update_running dt r1 r2 w H). cbv zeta.
  set (w2 := set_backgroundOffset _ (physics w)).
  pose proof (pipesLoop_frame (pipes w2) w2) as F.
  pose proof (pipesLoop_over (pipes w2) w2) as O.
  unfold loopFrame in F. injection F as Fc Fy Fx Fv _ _ _ _ _.
  assert (Px : mouthX (physics w) = mouthX w /\ canvas (physics w) = canvas w).
  { unfold physics. cbv zeta.
    repeat match goal with |- context [if ?c then _ else _] => destruct c end;
      split; reflexivity. }
  destruct Px as [Px Pc].
  destruct (Qltb PIPE_INTERVAL_MS _); cbn;
    rewrite ?Fc, ?Fy, ?Fx, ?Fv; subst w2; cbn; auto.
Qed.

(** ** The physics step *)

(** C1. In a tick that finds [isGameOver] false, whatever [dt] is, the
    velocity first grows by [GRAVITY], once, and the position then grows
    by the new velocity; the clamps follow, the ceiling before the
    ground.  Below the ceiling line the player is put at 0 with velocity 0
    and the physics step does not end the game; beyond the ground limit
    the player is put on the limit and the game is over; in between
    nothing is clamped.  (On a canvas so low that the ground limit is
    negative, the position clamped to 0 is beyond the limit and the ground
    clamp applies to it as well.) *)
Theorem update_physics_step (dt r1 r2 : Q) (w : World) :
  isGameOver w = false ->
  let w' := update dt r1 r2 w in
  let velocity := mouthVelY w + GRAVITY in
  let position := mouthY w + velocity in
  let groundLimit := height (canvas w) - GROUND_HEIGHT - MOUTH_SIZE in
  (position < 0 -> 0 <= groundLimit ->
   mouthY w' = 0 /\ mouthVelY w' = 0 /\ isGameOver (physics w) = false)
  /\ (0 <= position -> position <= groundLimit ->
      mouthY w' = position /\ mouthVelY w' = velocity
      /\ isGameOver (physics w) = false)
  /\ (0 <= position -> groundLimit < position ->
      mouthY w' = groundLimit /\ mouthVelY w' = velocity
      /\ isGameOver w' = true)
  /\ (position < 0 -> groundLimit < 0 ->
      mouthY w' = groundLimit /\ mouthVelY w' = 0 /\ isGameOver w' = true).
Proof.
  intros H w' velocity position groundLimit.
  destruct (update_player dt r1 r2 w H) as (Ey & Ev & _ & _ & Eo).
  fold w' in Ey, Ev, Eo. rewrite Ey, Ev. clear Ey Ev.
  assert (P : physics w =
    let u := set_mouthY position (set_mouthVelY velocity w) in
    let u := if Qltb position 0 then set_mouthVelY 0 (set_mouthY 0 u)
             else u in
    let g := height (canvas u) - GROUND_HEIGHT - MOUTH_SIZE in
    if Qltb g (mouthY u)
    then set_isGameOver true (set_mouthY g u) else u)
    by reflexivity.
  cbv zeta in P.
  destruct (Qltb position 0) eqn:T1;
    [apply Qltb_lt in T1 | apply Qltb_ge in T1];
    cbn [canvas mouthY set_mouthY set_mouthVelY] in P;
    change (height (canvas w) - GROUND_HEIGHT - MOUTH_SIZE)
      with groundLimit in P;
    match type of P with context [Qltb groundLimit ?y] =>
      destruct (Qltb groundLimit y) eqn:T2;
      [apply Qltb_lt in T2 | apply Qltb_ge in T2]
    end;
    (split; [| split; [| split]]); intros C1 C2; try lra;
    (split; [| split]); try apply Eo; rewrite P; reflexivity || exact H.
Qed.

(** One tick in each of the four situations, on a canvas 1200 high
    (ground limit 1088) and on one 100 high (ground limit -12): a rise
    through the ceiling, a free fall from rest at mid-height, a fall
    through the ground, and a rise through the ceiling of the low
    canvas. *)
Lemma update_physics_step_witness :
  (isGameOver (playerWorld 1200 2 FLAP_STRENGTH) = false
   /\ mouthY (update 16 0 0 (playerWorld 1200 2 FLAP_STRENGTH)) = 0
   /\ mouthVelY (update 16 0 0 (playerWorld 1200 2 FLAP_STRENGTH)) = 0
   /\ isGameOver (physics (playerWorld 1200 2 FLAP_STRENGTH)) = false)
  /\ (isGameOver scrollWorld = false
      /\ mouthY (update 16 0 0 scrollWorld) = 600 + (0 + GRAVITY)
      /\ mouthVelY (update 16 0 0 scrollWorld) = 0 + GRAVITY)
  /\ (isGameOver (playerWorld 1200 1085 10) = false
      /\ mouthY (update 16 0 0 (playerWorld 1200 1085 10))
         = 1200 - GROUND_HEIGHT - MOUTH_SIZE
      /\ isGameOver (update 16 0 0 (playerWorld 1200 1085 10)) = true)
  /\ (isGameOver (playerWorld 100 0 FLAP_STRENGTH) = false
      /\ mouthY (update 16 0 0 (playerWorld 100 0 FLAP_STRENGTH))
         = 100 - GROUND_HEIGHT - MOUTH_SIZE
      /\ isGameOver (update 16 0 0 (playerWorld 100 0 FLAP_STRENGTH)) = true).
Proof.
  split; [| split; [| split]].
  - assert (H : isGameOver (playerWorld 1200 2 FLAP_STRENGTH) = false)
      by reflexivity.
    destruct (update_physics_step 16 0 0 _ H) as (F & _).
    destruct F as (Ey & Ev & Eo);
      [vm_compute; reflexivity | vm_compute; discriminate |].
    repeat split; assumption.
  - assert (H : isGameOver scrollWorld = false) by reflexivity.
    destruct (update_physics_step 16 0 0 scrollWorld H) as (_ & F & _).
    destruct F as (Ey & Ev & _);
      [vm_compute; discriminate | vm_compute; discriminate |].
    repeat split; assumption.
  - assert (H : isGameOver (playerWorld 1200 1085 10) = false)
      by reflexivity.
    destruct (update_physics_step 16 0 0 _ H) as (_ & _ & F & _).
    destruct F as (Ey & _ & Eo);
      [vm_compute; discriminate | vm_compute; reflexivity |].
    repeat split; assumption.
  - assert (H : isGameOver (playerWorld 100 0 FLAP_STRENGTH) = false)
      by reflexivity.
    destruct (update_physics_step 16 0 0 _ H) as (_ & _ & _ & F).
    destruct F as (Ey & _ & Eo);
      [vm_compute; reflexivity | vm_compute; reflexivity |].
    repeat split; assumption.
Defined.

(** ** A game that is over *)

Lemma ticks_over (n : nat) (dt r1 r2 : Q) (w : World) :
  isGameOver w = true -> ticks n dt r1 r2 w = w.
Proof.
  intros H. induction n as [| n IH]; [reflexivity |].
  cbn [ticks]. unfold update at 1. rewrite H. exact IH.
Qed.

Lemma step_over (e : Event) (w : World) :
  isGameOver w = true -> isActivate e = false ->
  gameState (step e w) = gameState w.
Proof.
  intros H A. destruct e as [ts r1 r2 | now | iw ih];
    [| discriminate A | reflexivity].
  cbn [step]. unfold gameLoop, update.
  cbn [isGameOver set_lastTimestamp]. rewrite H. reflexivity.
Qed.

(** C8. When [isGameOver] is true on entry, [update] returns the world
    as it received it, for every [dt] (and every pair of random draws);
    so any number of ticks leaves it unchanged, and over any sequence of
    frames and resizes without an "activate" the player, the obstacles,
    the score, the best score, the spawn timer, the background offset and
    the storage stay as they were and [isGameOver] stays true. *)
Theorem update_game_over_noop (w : World) :
  isGameOver w = true ->
  (forall dt r1 r2, update dt r1 r2 w = w)
  /\ (forall n dt r1 r2, ticks n dt r1 r2 w = w)
  /\ (forall es, existsb isActivate es = false ->
        gameState (run es w) = gameState w
        /\ isGameOver (run es w) = true).
Proof.
  intros H. split; [| split].
  - intros dt r1 r2. unfold update. now rewrite H.
  - intros n dt r1 r2. now apply ticks_over.
  - intros es. revert w H.
    induction es as [| e es IH]; intros w H A; [now split |].
    cbn [existsb] in A. apply orb_false_iff in A as [Ae Aes].
    pose proof (step_over e w H Ae) as S.
    assert (H' : isGameOver (step e w) = true).
    { unfold gameState in S. injection S as _ _ _ _ _ _ _ _ S _. congruence. }
    cbn [run]. destruct (IH (step e w) H' Aes) as [G O].
    split; [congruence | exact O].
Qed.

(** On the ended game [overWorld], a tick of 16 ms changes nothing, and
    neither do two frames with a resize in between. *)
Lemma update_game_over_noop_witness :
  isGameOver overWorld = true
  /\ update 16 (1 # 2) (1 # 2) overWorld = overWorld
  /\ gameState (run [Frame 16 0 0; Resize 400 900; Frame 32 0 0] overWorld)
     = gameState overWorld.
Proof.
  assert (H : isGameOver overWorld = true) by reflexivity.
  destruct (update_game_over_noop overWorld H) as (U & _ & R).
  split; [exact H | split; [apply U |]].
  apply R. reflexivity.
Defined.

(** ** Activate *)

(** C10. An "activate" that finds the game over resets the world: the
    player is put back at mid-height and at 28% of the width with
    velocity 0, the obstacles are dropped, score, spawn timer and
    background offset are 0 and [isGameOver] is cleared, while the best
    score is kept; the impulse is not applied, so the velocity is 0 and
    not [FLAP_STRENGTH].  An "activate" that finds the game not over sets
    the velocity to [FLAP_STRENGTH] and leaves the rest of the game as it
    is. *)
Theorem flap_restart_or_impulse (now : Q) (w : World) :
  (isGameOver w = true ->
   let w' := flap now w in
   mouthY w' = height (canvas w) / 2
   /\ mouthX w' = width (canvas w) * (28 # 100)
   /\ mouthVelY w' = 0
   /\ pipes w' = []
   /\ score w' = 0%Z
   /\ lastPipeAt w' = 0
   /\ backgroundOffset w' = 0
   /\ isGameOver w' = false
   /\ best w' = best w
   /\ localStorage w' = localStorage w
   /\ isRunning w' = true
   /\ ~ mouthVelY w' == FLAP_STRENGTH)
  /\ (isGameOver w = false ->
      let w' := flap now w in
      mouthVelY w' = FLAP_STRENGTH
      /\ mouthY w' = mouthY w
      /\ mouthX w' = mouthX w
      /\ pipes w' = pipes w
      /\ score w' = score w
      /\ best w' = best w
      /\ lastPipeAt w' = lastPipeAt w
      /\ backgroundOffset w' = backgroundOffset w
      /\ isGameOver w' = false
      /\ isRunning w' = true).
Proof.
  split; intros H w'; subst w'; unfold flap;
    destruct (isRunning w) eqn:R; cbn [negb];
    cbn [isGameOver set_lastTimestamp set_isRunning]; rewrite H;
    cbn; repeat split; trivial; discriminate.
Qed.

(** The restart of [overWorld]: velocity 0, score 0, no obstacle, best
    score still 5; and the impulse on the running [scrollWorld]. *)
Lemma flap_restart_or_impulse_witness :
  (isGameOver overWorld = true
   /\ mouthVelY (flap 1000 overWorld) = 0
   /\ score (flap 1000 overWorld) = 0%Z
   /\ pipes (flap 1000 overWorld) = []
   /\ best (flap 1000 overWorld) = 5)
  /\ (isGameOver scrollWorld = false
      /\ mouthVelY (flap 1000 scrollWorld) = FLAP_STRENGTH).
Proof.
  assert (H : isGameOver overWorld = true) by reflexivity.
  assert (K : isGameOver scrollWorld = false) by reflexivity.
  destruct (flap_restart_or_impulse 1000 overWorld) as [F _].
  destruct (F H) as (_ & _ & V & P & S & _ & _ & _ & B & _).
  destruct (flap_restart_or_impulse 1000 scrollWorld) as [_ G].
  destruct (G K) as (I & _).
  repeat split; assumption.
Defined.

(** ** Spawning *)

(** C4. With both random draws in [0, 1), [spawnPipe] appends one
    obstacle, not passed, of width 70, at [x = canvas.width + 70]; its
    gap lies in [140, 200]; and if the placement envelope is valid for
    that gap (canvas.height - 80 - 40 - gap > 40), the top height lies in
    [40, canvas.height - 80 - 40 - gap], so that top height plus gap is at
    most canvas.height - 80 - 40. *)
Theorem spawnPipe_envelope (r1 r2 : Q) (w : World) :
  0 <= r1 -> r1 < 1 -> 0 <= r2 -> r2 < 1 ->
  exists p,
    pipes (spawnPipe r1 r2 w) = pipes w ++ [p]
    /\ Pipe.passed p = false
    /\ Pipe.width p = 70
    /\ Pipe.x p = width (canvas w) + 70
    /\ 140 <= Pipe.gap p /\ Pipe.gap p <= 200
    /\ (40 < height (canvas w) - 80 - 40 - Pipe.gap p ->
        40 <= Pipe.topHeight p
        /\ Pipe.topHeight p <= height (canvas w) - 80 - 40 - Pipe.gap p
        /\ Pipe.topHeight p + Pipe.gap p <= height (canvas w) - 80 - 40).
Proof.
  intros A1 B1 A2 B2. eexists. split; [reflexivity |].
  cbn [Pipe.passed Pipe.width Pipe.x Pipe.gap Pipe.topHeight].
  unfold PIPE_GAP_MIN, PIPE_GAP_MAX, GROUND_HEIGHT.
  set (gap := 140 + r1 * (200 - 140)).
  assert (G1 : 140 <= gap) by (subst gap; nra).
  assert (G2 : gap <= 200) by (subst gap; nra).
  repeat split; trivial; set (b := height (canvas w) - 80 - 40 - gap) in *.
  - nra.
  - nra.
  - subst b. nra.
Qed.

(** On the 800 x 1200 canvas with both draws at 1/2: gap 170, top height
    475, x = 870. *)
Lemma spawnPipe_envelope_witness :
  (0 <= 1 # 2 /\ (1 # 2) < 1)
  /\ exists p,
       pipes (spawnPipe (1 # 2) (1 # 2) scrollWorld)
       = pipes scrollWorld ++ [p]
       /\ Pipe.x p = 800 + 70
       /\ 140 <= Pipe.gap p /\ Pipe.gap p <= 200
       /\ 40 < 1200 - 80 - 40 - Pipe.gap p
       /\ 40 <= Pipe.topHeight p
       /\ Pipe.topHeight p + Pipe.gap p <= 1200 - 80 - 40.
Proof.
  assert (A : 0 <= 1 # 2) by (vm_compute; discriminate).
  assert (B : (1 # 2) < 1) by reflexivity.
  split; [split; assumption |].
  destruct (spawnPipe_envelope (1 # 2) (1 # 2) scrollWorld A B A B)
    as (p & E & _ & _ & X & G1 & G2 & T).
  cbn [height width canvas scrollWorld] in T, X.
  assert (V : 40 < 1200 - 80 - 40 - Pipe.gap p) by lra.
  destruct (T V) as (T1 & _ & T3).
  exists p. repeat split; assumption.
Defined.

(** ** The loop over the obstacles, obstacle by obstacle *)

Lemma pipeIteration_view (p : Pipe.t) (w : World) :
  pipeIteration p w =
  let q := advance p in
  let mc := mouthCenter w in
  if offScreen q then (None, w)
  else
    let w1 := if crossing mc q then scorePoint w else w in
    (Some (markPassed mc q),
     if collides w1 (markPassed mc q) then set_isGameOver true w1 else w1).
Proof.
  unfold pipeIteration, offScreen, markPassed, crossing, mouthCenter,
    pipeCenter, advance. cbv zeta.
  destruct (Qltb (Pipe.x _ + _) _); [reflexivity |].
  destruct (negb _ && _); reflexivity.
Qed.

Lemma mouthCenter_frame (w w' : World) :
  loopFrame w' = loopFrame w -> mouthCenter w' = mouthCenter w.
Proof.
  unfold loopFrame, mouthCenter. intros F.
  injection F as _ _ Fx _ _ _ _ _ _. now rewrite Fx.
Qed.

Lemma pipesLoop_pipes (ps : list Pipe.t) (w : World) :
  fst (pipesLoop ps w) = survivors (mouthCenter w) ps.
Proof.
  induction ps as [| p rest IH]; [reflexivity |].
  cbn [pipesLoop].
  pose proof (pipesLoop_frame rest w) as F.
  destruct (pipesLoop rest w) as [rest' w1]. cbn [fst snd] in IH, F.
  rewrite (pipeIteration_view p w1). cbv zeta.
  rewrite (mouthCenter_frame _ _ F).
  unfold survivors in *. cbn [map filter]. unfold onScreen at 1.
  destruct (offScreen (advance p)); cbn [negb fst map]; now rewrite IH.
Qed.

Lemma scorePoint_score (w : World) :
  score (scorePoint w) = (score w + 1)%Z.
Proof. unfold scorePoint. now destruct (Qltb _ _). Qed.

Lemma pipesLoop_score (ps : list Pipe.t) (w : World) :
  score (snd (pipesLoop ps w))
  = (score w + Z.of_nat (List.length (flipped (mouthCenter w) ps)))%Z.
Proof.
  induction ps as [| p rest IH]; [cbn; lia |].
  cbn [pipesLoop].
  pose proof (pipesLoop_frame rest w) as F.
  destruct (pipesLoop rest w) as [rest' w1]. cbn [fst snd] in IH, F.
  rewrite (pipeIteration_view p w1). cbv zeta.
  rewrite (mouthCenter_frame _ _ F).
  unfold flipped in *. cbn [map filter]. unfold onScreen at 1.
  destruct (offScreen (advance p)); cbn [negb snd filter]; [exact IH |].
  destruct (crossing (mouthCenter w) (advance p)); cbn [List.length];
    destruct (collides _ _); cbn [score set_isGameOver snd];
    rewrite ?scorePoint_score, IH; lia.
Qed.

(** ** Score, best score and storage along the loop *)

Lemma Tally_scoring (w w' u u' : World) :
  scoring u = scoring w -> scoring u' = scoring w' ->
  Tally w w' -> Tally u u'.
Proof.
  unfold scoring, Tally, wrote. intros E E'.
  injection E as -> -> ->. injection E' as -> -> ->. trivial.
Qed.

Lemma Tally_refl (w : World) : Tally w w.
Proof.
  unfold Tally, wrote.
  split; [lia |]. split; [apply Qle_refl |]. split; [now exists [] |].
  intros I. split; [exact I |].
  split; [symmetry; now apply Q.max_l |].
  split; [| lia].
  split; [lia |].
  intros L. exfalso. apply (Qlt_not_le _ _ L). exact I.
Qed.

Lemma Tally_scorePoint (w : World) : Tally w (scorePoint w).
Proof.
  unfold Tally, wrote, scorePoint.
  cbn [score best localStorage set_score].
  destruct (Qltb (best w) (inject_Z (score w + 1))) eqn:T;
    [apply Qltb_lt in T | apply Qltb_ge in T];
    cbn [score best localStorage set_score set_best set_localStorage setItem
         List.length].
  - split; [lia |]. split; [now apply Qlt_le_weak |].
    split; [now exists [(BEST_KEY, numberToString (score w + 1))] |].
    intros I. split; [apply Qle_refl |].
    split; [symmetry; apply Q.max_r; now apply Qlt_le_weak |].
    split; [split; [trivial | lia] |].
    intros _. reflexivity.
  - split; [lia |]. split; [apply Qle_refl |]. split; [now exists [] |].
    intros I. split; [exact T |].
    split; [symmetry; now apply Q.max_l |].
    split; [| lia].
    split; [lia |].
    intros L. exfalso. apply (Qlt_not_le _ _ L). exact T.
Qed.

Lemma Tally_trans (a b c : World) : Tally a b -> Tally b c -> Tally a c.
Proof.
  unfold Tally, wrote.
  intros (S1 & B1 & (n1 & N1) & I1) (S2 & B2 & (n2 & N2) & I2).
  split; [lia |]. split; [eapply Qle_trans; eassumption |].
  split; [exists (n2 ++ n1); now rewrite N2, N1, app_assoc |].
  intros Ia. destruct (I1 Ia) as (Ib & M1 & W1 & V1).
  destruct (I2 Ib) as (Ic & M2 & W2 & V2).
  assert (Sq : inject_Z (score b) <= inject_Z (score c))
    by now rewrite <- Zle_Qle.
  assert (La : List.length (localStorage b)
               = (List.length n1 + List.length (localStorage a))%nat)
    by now rewrite N1, length_app.
  assert (Lb : List.length (localStorage c)
               = (List.length n2 + List.length (localStorage b))%nat)
    by now rewrite N2, length_app.
  split; [exact Ic |]. split; [| split].
  - rewrite M2, M1.
    destruct (Qlt_le_dec (best a) (inject_Z (score b))) as [L | L].
    + rewrite (Q.max_r (best a) (inject_Z (score b)))
        by now apply Qlt_le_weak.
      rewrite (Q.max_r (inject_Z (score b))) by assumption.
      symmetry. apply Q.max_r. apply Qlt_le_weak.
      eapply Qlt_le_trans; eassumption.
    + now rewrite (Q.max_l (best a) (inject_Z (score b))).
  - split.
    + intros L.
      destruct (Nat.eq_dec (List.length n2) 0) as [Z2 | Z2].
      * eapply Qlt_le_trans; [| exact Sq]. apply W1. lia.
      * eapply Qle_lt_trans; [exact B1 |]. apply W2. lia.
    + intros L.
      destruct (Qlt_le_dec (best a) (inject_Z (score b))) as [L1 | L1].
      * apply W1 in L1. lia.
      * assert (L2 : best b < inject_Z (score c)).
        { rewrite M1, (Q.max_l _ _ L1). exact L. }
        apply W2 in L2. lia.
  - intros L.
    destruct (Nat.eq_dec (List.length n2) 0) as [Z2 | Z2].
    + assert (Wab : (List.length (localStorage a)
                     < List.length (localStorage b))%nat) by lia.
      assert (n2 = []) by now destruct n2.
      subst n2. cbn [app] in N2.
      assert (Ebc : score c = score b).
      { apply Z.le_antisymm; [| exact S2].
        rewrite Zle_Qle.
        assert (Eb : best b == inject_Z (score b)).
        { rewrite M1. apply Q.max_r. apply Qlt_le_weak. now apply W1. }
        rewrite <- Eb. apply Qnot_lt_le. intros L2. apply W2 in L2. lia. }
      rewrite N2, Ebc. now apply V1.
    + apply V2. lia.
Qed.

Lemma pipesLoop_tally (ps : list Pipe.t) (w : World) :
  Tally w (snd (pipesLoop ps w)).
Proof.
  induction ps as [| p rest IH]; [apply Tally_refl |].
  cbn [pipesLoop].
  destruct (pipesLoop rest w) as [rest' w1]. cbn [snd] in IH.
  rewrite (pipeIteration_view p w1). cbv zeta.
  destruct (offScreen (advance p)); cbn [snd]; [exact IH |].
  apply (Tally_trans _ _ _ IH).
  destruct (crossing _ _).
  - apply (Tally_scoring w1 (scorePoint w1)); trivial;
      [| apply Tally_scorePoint].
    now destruct (collides _ _).
  - apply (Tally_scoring w1 w1); trivial; [| apply Tally_refl].
    now destruct (collides _ _).
Qed.

(** One tick: the obstacles it keeps and spawns, its score and its
    book-keeping of the best score. *)
Lemma update_pipes (dt r1 r2 : Q) (w : World) :
  isGameOver w = false ->
  exists spawned,
    pipes (update dt r1 r2 w) = survivors (mouthCenter w) (pipes w) ++ spawned
    /\ (spawned = [] \/ exists p, spawned = [p] /\ Pipe.passed p = false).
Proof.
  intros H. rewrite (update_running dt r1 r2 w H). cbv zeta.
  set (w2 := set_backgroundOffset _ (physics w)).
  assert (E : fst (pipesLoop (pipes w2) w2)
              = survivors (mouthCenter w) (pipes w)).
  { rewrite pipesLoop_pipes. subst w2. unfold physics, mouthCenter. cbv zeta.
    repeat match goal with |- context [if ?c then _ else _] => destruct c end;
      reflexivity. }
  destruct (Qltb PIPE_INTERVAL_MS _).
  - unfold spawnPipe. cbn [pipes set_pipes set_lastPipeAt]. rewrite E.
    eexists. split; [reflexivity |].
    right. eexists. split; reflexivity.
  - exists []. cbn [pipes set_pipes set_lastPipeAt].
    rewrite E, app_nil_r. split; [reflexivity | now left].
Qed.

Lemma update_scoring (dt r1 r2 : Q) (w : World) :
  score (update dt r1 r2 w)
  = (score w + (if isGameOver w then 0
                else Z.of_nat (List.length
                                 (flipped (mouthCenter w) (pipes w)))))%Z
  /\ Tally w (update dt r1 r2 w).
Proof.
  destruct (isGameOver w) eqn:H.
  - unfold update. rewrite H. split; [lia | apply Tally_refl].
  - rewrite (update_running dt r1 r2 w H). cbv zeta.
    set (w2 := set_backgroundOffset _ (physics w)).
    assert (E2 : scoring w2 = scoring w /\ mouthCenter w2 = mouthCenter w
                 /\ pipes w2 = pipes w).
    { subst w2. unfold physics, mouthCenter, scoring. cbv zeta.
      repeat match goal with |- context [if ?c then _ else _] => destruct c end;
        repeat split; reflexivity. }
    clearbody w2. destruct E2 as (E2 & Em & Ep).
    pose proof (pipesLoop_score (pipes w2) w2) as Sc.
    pose proof (pipesLoop_tally (pipes w2) w2) as Ta.
    rewrite Em in Sc. rewrite Ep in Sc at 2.
    assert (Es : score w2 = score w)
      by (unfold scoring in E2; congruence).
    rewrite Es in Sc.
    split.
    + destruct (Qltb PIPE_INTERVAL_MS _); cbn; exact Sc.
    + apply (Tally_scoring w2 (snd (pipesLoop (pipes w2) w2)));
        [symmetry; exact E2 | | exact Ta].
      destruct (Qltb PIPE_INTERVAL_MS _); reflexivity.
Qed.

(** ** Passing an obstacle *)

Lemma flipped_all_passed (mc : Q) (ps : list Pipe.t) :
  Forall (fun p => Pipe.passed p = true) ps -> flipped mc ps = [].
Proof.
  unfold flipped. induction 1 as [| p rest Hp _ IH]; [reflexivity |].
  cbn [map filter]. destruct (onScreen (advance p)); [| exact IH].
  cbn [filter]. unfold crossing at 1. cbn [advance Pipe.passed Pipe.set_x].
  rewrite Hp. exact IH.
Qed.

Lemma step_score (e : Event) (w : World) :
  (isActivate e && isGameOver w) = false ->
  (score w <= score (step e w))%Z.
Proof.
  intros A. destruct e as [ts r1 r2 | now | iw ih]; cbn [step].
  - unfold gameLoop.
    destruct (update_scoring (Qmin 50 (ts - lastTimestamp w)) r1 r2
                (set_lastTimestamp ts w)) as [_ (S & _)].
    exact S.
  - cbn [isActivate andb] in A. unfold flap.
    destruct (isRunning w); cbn [negb isGameOver set_lastTimestamp
                                  set_isRunning];
      rewrite A; cbn; lia.
  - cbn. lia.
Qed.

(** C2. An obstacle that an iteration of the loop keeps has moved left
    by the scroll speed, and its [passed] flag is then the old flag or
    the test "its centre is left of the player's centre": a flag that is
    true stays true, and a flag that is false becomes true exactly when
    the centre is left of the player's, so that it is still false only
    while the centre has not got there.  The score grows by 1 when the
    flag turns from false to true and is unchanged otherwise, also when
    the obstacle is removed.  Over a whole tick the obstacles kept are
    [survivors], a spawned one is not passed, the score grows by the
    number of obstacles whose flag turned, by nothing when every obstacle
    is already passed; so the score never decreases in a tick, nor over
    any sequence of events that does not restart the game. *)
Theorem passed_once_score_once :
  (forall p w p' w',
      pipeIteration p w = (Some p', w') ->
      Pipe.x p' = Pipe.x p - SCROLL_SPEED
      /\ Pipe.passed p'
         = Pipe.passed p || Qltb (pipeCenter p') (mouthCenter w)
      /\ score w'
         = (score w
            + (if negb (Pipe.passed p) && Pipe.passed p' then 1 else 0))%Z)
  /\ (forall p w w', pipeIteration p w = (None, w') -> w' = w)
  /\ (forall dt r1 r2 w,
        isGameOver w = false ->
        (exists spawned,
            pipes (update dt r1 r2 w)
            = survivors (mouthCenter w) (pipes w) ++ spawned
            /\ Forall (fun p => Pipe.passed p = false) spawned)
        /\ score (update dt r1 r2 w)
           = (score w
              + Z.of_nat (List.length
                            (flipped (mouthCenter w) (pipes w))))%Z)
  /\ (forall dt r1 r2 w,
        Forall (fun p => Pipe.passed p = true) (pipes w) ->
        score (update dt r1 r2 w) = score w)
  /\ (forall dt r1 r2 w, (score w <= score (update dt r1 r2 w))%Z)
  /\ (forall es w,
        noRestart es w = true -> (score w <= score (run es w))%Z).
Proof.
  split; [| split; [| split; [| split; [| split]]]].
  - intros p w p' w' E. rewrite pipeIteration_view in E. cbv zeta in E.
    destruct (offScreen (advance p)); [discriminate E |].
    injection E as <- <-.
    assert (X : forall q, Pipe.x (markPassed (mouthCenter w) q) = Pipe.x q
                          /\ pipeCenter (markPassed (mouthCenter w) q)
                             = pipeCenter q).
    { intros q. unfold markPassed. now destruct (crossing _ q). }
    destruct (X (advance p)) as [Xx Xc]. rewrite Xx, Xc. clear X Xx Xc.
    split; [reflexivity |].
    unfold markPassed, crossing.
    change (Pipe.passed (advance p)) with (Pipe.passed p).
    destruct (Pipe.passed p) eqn:P; cbn [negb andb orb].
    + change (Pipe.passed (advance p)) with (Pipe.passed p). rewrite P.
      split; [reflexivity |]. destruct (collides _ _); cbn; lia.
    + destruct (Qltb (pipeCenter (advance p)) (mouthCenter w)) eqn:C.
      * cbn [Pipe.set_passed Pipe.passed].
        split; [reflexivity |].
        destruct (collides _ _); cbn [score set_isGameOver];
          apply scorePoint_score.
      * change (Pipe.passed (advance p)) with (Pipe.passed p). rewrite P.
        split; [reflexivity |].
        destruct (collides _ _); cbn [score set_isGameOver]; lia.
  - intros p w w' E. rewrite pipeIteration_view in E. cbv zeta in E.
    destruct (offScreen (advance p)); [| discriminate E]. congruence.
  - intros dt r1 r2 w H. split.
    + destruct (update_pipes dt r1 r2 w H) as (sp & E & [-> | (p & -> & P)]);
        eexists; (split; [exact E |]); auto.
    + destruct (update_scoring dt r1 r2 w) as [S _]. now rewrite H in S.
  - intros dt r1 r2 w A.
    destruct (update_scoring dt r1 r2 w) as [S _]. rewrite S.
    rewrite (flipped_all_passed _ _ A). destruct (isGameOver w); cbn; lia.
  - intros dt r1 r2 w. destruct (update_scoring dt r1 r2 w) as [_ (S & _)].
    exact S.
  - induction es as [| e es IH]; intros w N; [cbn; lia |].
    cbn [noRestart] in N. apply andb_true_iff in N as [N1 N2].
    apply negb_true_iff in N1. cbn [run].
    pose proof (step_score e w N1). specialize (IH _ N2). lia.
Qed.

(** On [scrollWorld] the only obstacle, at x = 0, is left of the player:
    its iteration turns the flag and scores, and the first tick takes the
    score from 0 to 1.  An obstacle at x = -79 is removed by its
    iteration.  On [passedWorld] the tick does not score. *)
Lemma passed_once_score_once_witness :
  (pipeIteration (Pipe.mk 0 PIPE_WIDTH 100 150 false) scrollWorld
   = (Some (Pipe.mk (0 - SCROLL_SPEED) PIPE_WIDTH 100 150 true),
      scorePoint scrollWorld)
   /\ score (scorePoint scrollWorld) = (score scrollWorld + 1)%Z)
  /\ (pipeIteration (Pipe.mk (- (79)) PIPE_WIDTH 100 150 true) scrollWorld
      = (None, scrollWorld))
  /\ (isGameOver scrollWorld = false
      /\ score (update 16 0 0 scrollWorld)
         = (score scrollWorld
            + Z.of_nat (List.length (flipped (mouthCenter scrollWorld)
                                       (pipes scrollWorld))))%Z)
  /\ (Forall (fun p => Pipe.passed p = true) (pipes passedWorld)
      /\ score (update 16 0 0 passedWorld) = score passedWorld)
  /\ (noRestart [Frame 16 0 0; Activate 20; Frame 32 0 0] scrollWorld = true
      /\ (score scrollWorld
          <= score (run [Frame 16 0 0; Activate 20; Frame 32 0 0]
                      scrollWorld))%Z).
Proof.
  assert (E : pipeIteration (Pipe.mk 0 PIPE_WIDTH 100 150 false) scrollWorld
              = (Some (Pipe.mk (0 - SCROLL_SPEED) PIPE_WIDTH 100 150 true),
                 scorePoint scrollWorld)) by reflexivity.
  assert (G : pipeIteration (Pipe.mk (- (79)) PIPE_WIDTH 100 150 true)
                scrollWorld = (None, scrollWorld)) by reflexivity.
  assert (H : isGameOver scrollWorld = false) by reflexivity.
  assert (A : Forall (fun p => Pipe.passed p = true) (pipes passedWorld))
    by (repeat constructor).
  assert (N : noRestart [Frame 16 0 0; Activate 20; Frame 32 0 0] scrollWorld
              = true) by (vm_compute; reflexivity).
  destruct passed_once_score_once as (I & O & U & P & _ & R).
  destruct (I _ _ _ _ E) as (_ & _ & S1).
  pose proof (O _ _ _ G) as S2.
  destruct (U 16 0 0 scrollWorld H) as [_ S].
  split; [split; [exact E | exact S1] |].
  split; [exact G |].
  split; [split; [exact H | exact S] |].
  split; [split; [exact A | exact (P 16 0 0 _ A)] |].
  split; [exact N | exact (R _ _ N)].
Defined.

(** ** The best score *)

Lemma gameLoop_tally (ts r1 r2 : Q) (w : World) :
  Tally w (gameLoop ts r1 r2 w).
Proof.
  unfold gameLoop.
  destruct (update_scoring (Qmin 50 (ts - lastTimestamp w)) r1 r2
              (set_lastTimestamp ts w)) as [_ T].
  exact (Tally_scoring _ _ _ _ eq_refl eq_refl T).
Qed.

Lemma flap_scoring (now : Q) (w : World) :
  best (flap now w) = best w
  /\ localStorage (flap now w) = localStorage w
  /\ (score (flap now w) = score w \/ score (flap now w) = 0%Z).
Proof.
  unfold flap.
  destruct (isRunning w); cbn [negb isGameOver set_lastTimestamp
                                set_isRunning];
    destruct (isGameOver w); cbn; auto.
Qed.

Lemma step_best_le (e : Event) (w : World) : best w <= best (step e w).
Proof.
  destruct e as [ts r1 r2 | now | iw ih]; cbn [step].
  - apply (gameLoop_tally ts r1 r2 w).
  - rewrite (proj1 (flap_scoring now w)). apply Qle_refl.
  - apply Qle_refl.
Qed.

(** A step keeps "0 <= score <= best" and makes the best score the
    larger of the old best score and the new score. *)
Lemma step_best_max (e : Event) (w : World) :
  (0 <= score w)%Z -> inject_Z (score w) <= best w ->
  (0 <= score (step e w))%Z
  /\ inject_Z (score (step e w)) <= best (step e w)
  /\ best (step e w) == Qmax (best w) (inject_Z (score (step e w))).
Proof.
  intros P I. destruct e as [ts r1 r2 | now | iw ih]; cbn [step].
  - destruct (gameLoop_tally ts r1 r2 w) as (S & _ & _ & T).
    destruct (T I) as (I' & M & _). split; [lia | now split].
  - destruct (flap_scoring now w) as (B & _ & [S | S]); rewrite B, S.
    + split; [exact P |]. split; [exact I |].
      symmetry. now apply Q.max_l.
    + assert (Z0 : inject_Z 0 <= best w).
      { eapply Qle_trans; [| exact I]. now rewrite <- Zle_Qle. }
      split; [lia |]. split; [exact Z0 |].
      symmetry. now apply Q.max_l.
  - cbn. split; [exact P |]. split; [exact I |].
    symmetry. now apply Q.max_l.
Qed.

Lemma maxScore_first (es : list Event) (w : World) :
  (score w <= maxScore es w)%Z.
Proof. destruct es; cbn [maxScore]; lia. Qed.

Lemma run_best_max (es : list Event) (w : World) :
  (0 <= score w)%Z -> inject_Z (score w) <= best w ->
  best (run es w) == Qmax (best w) (inject_Z (maxScore es w)).
Proof.
  revert w. induction es as [| e es IH]; intros w P I; cbn [run maxScore].
  - symmetry. now apply Q.max_l.
  - destruct (step_best_max e w P I) as (P' & I' & M).
    rewrite (IH _ P' I'), M.
    pose proof (maxScore_first es (step e w)) as F.
    rewrite Zle_Qle in F.
    set (m := maxScore es (step e w)) in *.
    set (s1 := score (step e w)) in *.
    assert (Em : inject_Z (Z.max (score w) m)
                 == Qmax (inject_Z (score w)) (inject_Z m)).
    { destruct (Z.max_spec (score w) m) as [[L ->] | [L ->]].
      - symmetry. apply Q.max_r. rewrite <- Zle_Qle. lia.
      - symmetry. apply Q.max_l. now rewrite <- Zle_Qle. }
    rewrite Em.
    rewrite (Q.max_assoc (best w)), (Q.max_l (best w) (inject_Z (score w)))
      by exact I.
    rewrite <- (Q.max_assoc (best w)), (Q.max_r (inject_Z s1)) by exact F.
    reflexivity.
Qed.

(** C3. The best score never decreases, whatever happens: a frame, an
    "activate" (the restart included, which puts the score back to 0 and
    leaves the best score and the storage alone), a resize.  The world at
    start-up, when the best score read is not negative, has
    0 <= score <= best, and every event keeps that.  From a world with
    0 <= score <= best, after any sequence of events the best score is
    the larger of the initial best score and the highest score reached.
    A point that is scored writes the storage exactly when the new score
    exceeds the best score; so in a tick that starts with
    score <= best, the storage is written exactly when the score the tick
    ends with exceeds the best score it started with; what is then stored
    under the key is that score, and the best score is the larger of the
    two. *)
Theorem best_score_kept :
  (forall e w, best w <= best (step e w))
  /\ (forall es w, best w <= best (run es w))
  /\ (forall w,
        best (resetGame w) = best w
        /\ score (resetGame w) = 0%Z
        /\ localStorage (resetGame w) = localStorage w)
  /\ (forall cv b st,
        0 <= b ->
        (0 <= score (initialWorld cv b st))%Z
        /\ inject_Z (score (initialWorld cv b st))
           <= best (initialWorld cv b st))
  /\ (forall e w,
        (0 <= score w)%Z -> inject_Z (score w) <= best w ->
        (0 <= score (step e w))%Z
        /\ inject_Z (score (step e w)) <= best (step e w))
  /\ (forall es w,
        (0 <= score w)%Z -> inject_Z (score w) <= best w ->
        best (run es w) == Qmax (best w) (inject_Z (maxScore es w)))
  /\ (forall w,
        wrote w (scorePoint w)
        <-> best w < inject_Z (score (scorePoint w)))
  /\ (forall dt r1 r2 w,
        inject_Z (score w) <= best w ->
        let w' := update dt r1 r2 w in
        (wrote w w' <-> best w < inject_Z (score w'))
        /\ (wrote w w' ->
            getItem BEST_KEY (localStorage w')
            = Some (numberToString (score w')))
        /\ best w' == Qmax (best w) (inject_Z (score w'))).
Proof.
  split; [exact step_best_le |].
  split; [| split; [| split; [| split; [|
            split; [exact run_best_max | split]]]]].
  - induction es as [| e es IH]; intros w; cbn [run]; [apply Qle_refl |].
    eapply Qle_trans; [apply step_best_le | apply IH].
  - intros w. repeat split.
  - intros cv b st B. split; [cbn; lia | exact B].
  - intros e w P I. destruct (step_best_max e w P I) as (P' & I' & _).
    now split.
  - intros w. rewrite scorePoint_score. unfold wrote, scorePoint.
    cbn [score best localStorage set_score].
    destruct (Qltb (best w) (inject_Z (score w + 1))) eqn:T;
      [apply Qltb_lt in T | apply Qltb_ge in T];
      cbn [localStorage set_score set_best set_localStorage setItem
           List.length].
    + split; [trivial | lia].
    + split; [lia |]. intros L. exfalso. exact (Qlt_not_le _ _ L T).
  - intros dt r1 r2 w I w'.
    destruct (update_scoring dt r1 r2 w) as [_ (_ & _ & _ & T)].
    destruct (T I) as (_ & M & W & V). fold w' in M, W, V.
    split; [exact W | split; [exact V | exact M]].
Qed.

(** On [scrollWorld] (score 0, best 0) the first tick scores a point:
    the storage is written, and after two frames the best score is the
    larger of 0 and the highest score.  A start-up with best score 5. *)
Lemma best_score_kept_witness :
  ((0 <= score scrollWorld)%Z
   /\ inject_Z (score scrollWorld) <= best scrollWorld)
  /\ (wrote scrollWorld (update 16 0 0 scrollWorld)
      <-> best scrollWorld < inject_Z (score (update 16 0 0 scrollWorld)))
  /\ best (run [Frame 16 0 0; Frame 32 0 0] scrollWorld)
     == Qmax (best scrollWorld)
          (inject_Z (maxScore [Frame 16 0 0; Frame 32 0 0] scrollWorld))
  /\ inject_Z (score (step (Frame 16 0 0) scrollWorld))
     <= best (step (Frame 16 0 0) scrollWorld)
  /\ (0 <= 5
      /\ inject_Z (score (initialWorld (mkCanvas 800 1200) 5 []))
         <= best (initialWorld (mkCanvas 800 1200) 5 [])).
Proof.
  assert (P : (0 <= score scrollWorld)%Z) by (vm_compute; discriminate).
  assert (I : inject_Z (score scrollWorld) <= best scrollWorld)
    by (vm_compute; discriminate).
  assert (B : 0 <= 5) by (vm_compute; discriminate).
  destruct best_score_kept as (_ & _ & _ & S & K & R & _ & U).
  destruct (U 16 0 0 scrollWorld I) as (W & _ & _).
  destruct (K (Frame 16 0 0) scrollWorld P I) as (_ & I').
  destruct (S (mkCanvas 800 1200) 5 [] B) as (_ & I0).
  split; [split; [exact P | exact I] |].
  split; [exact W |]. split; [exact (R _ _ P I) |].
  split; [exact I' | split; [exact B | exact I0]].
Defined.

(** ** Scrolling and removal *)




Lemma markPassed_geometry (mc : Q) (p : Pipe.t) :
  Pipe.x (markPassed mc (advance p)) = Pipe.x p - SCROLL_SPEED
  /\ Pipe.width (markPassed mc (advance p)) = Pipe.width p
  /\ Pipe.topHeight (markPassed mc (advance p)) = Pipe.topHeight p
  /\ Pipe.gap (markPassed mc (advance p)) = Pipe.gap p.
Proof. unfold markPassed. now destruct (crossing mc (advance p)). Qed.

Lemma offScreen_advance (p : Pipe.t) :
  offScreen (advance p) = true
  <-> Pipe.x p - SCROLL_SPEED + Pipe.width p < - (10).
Proof. unfold offScreen. cbn [advance Pipe.x Pipe.width Pipe.set_x].
  apply Qltb_lt. Qed.

Lemma survivors_In (mc : Q) (ps : list Pipe.t) (p' : Pipe.t) :
  In p' (survivors mc ps)
  <-> exists p, In p ps
                /\ ~ Pipe.x p - SCROLL_SPEED + Pipe.width p < - (10)
                /\ p' = markPassed mc (advance p).
Proof.
  unfold survivors. rewrite in_map_iff. split.
  - intros (q & <- & I). apply filter_In in I as [I K].
    apply in_map_iff in I as (p & <- & I).
    exists p. split; [exact I |]. split; [| reflexivity].
    rewrite <- offScreen_advance. unfold onScreen in K.
    now destruct (offScreen (advance p)).
  - intros (p & I & K & ->). exists (advance p). split; [reflexivity |].
    apply filter_In. split; [now apply in_map |].
    rewrite <- offScreen_advance in K. unfold onScreen.
    now destruct (offScreen (advance p)).
Qed.



Lemma inject_Z_succ (n : nat) :
  inject_Z (Z.of_nat (S n)) == inject_Z (Z.of_nat n) + 1.
Proof.
  rewrite Nat2Z.inj_succ. unfold Z.succ. rewrite inject_Z_plus. reflexivity.
Qed.

Lemma inject_Z_nat_nonneg (n : nat) : 0 <= inject_Z (Z.of_nat n).
Proof. change 0 with (inject_Z 0). rewrite <- Zle_Qle. lia. Qed.




(** Rounding does not change the outcome of the scenario: in binary64
    too the obstacle that started at 0 is kept by tick 30 and removed by
    tick 31. *)
Lemma scenario_binary64 :
  offScreenBinary64 (scrollBinary64 30 0%float) 70%float = false
  /\ offScreenBinary64 (scrollBinary64 31 0%float) 70%float = true.
Proof. split; vm_compute; reflexivity. Qed.


(** ** Reading a stored score back *)

Lemma isDigit_plain (c : ascii) :
  isDigit c = true ->
  isWhiteSpace c = false
  /\ Ascii.eqb c "x" = false /\ Ascii.eqb c "X" = false
  /\ Ascii.eqb c "o" = false /\ Ascii.eqb c "O" = false
  /\ Ascii.eqb c "b" = false /\ Ascii.eqb c "B" = false
  /\ Ascii.eqb c "+" = false /\ Ascii.eqb c "-" = false
  /\ Ascii.eqb c "I" = false.
Proof.
  destruct c as [[] [] [] [] [] [] [] []]; vm_compute; intros D;
    try discriminate D; repeat split.
Qed.

Lemma decimalDigits_digits (u : uint) :
  Forall (fun c => isDigit c = true) (decimalDigits u).
Proof.
  induction u; constructor; (reflexivity || assumption).
Qed.

Lemma decimalDigits_nonempty (u : uint) :
  u <> Nil -> exists c rest, decimalDigits u = c :: rest.
Proof.
  intros N. destruct u; [now destruct N | ..];
    eexists; eexists; reflexivity.
Qed.

Lemma digitsValue_acc (u : uint) (acc : positive) :
  digitsValue 10 (Npos acc) (decimalDigits u)
  = Some (Npos (Pos.of_uint_acc u acc)).
Proof.
  revert acc. induction u; intros acc; [reflexivity | ..];
    unfold decimalDigits;
    cbn [list_ascii_of_string NilEmpty.string_of_uint];
    fold (decimalDigits u); cbn [digitsValue];
    match goal with
    | |- context [digitValue 10 ?c] =>
        let v := eval vm_compute in (digitValue 10 c) in
        change (digitValue 10 c) with v
    end;
    cbn [Pos.of_uint_acc]; rewrite <- IHu; f_equal; lia.
Qed.

Lemma digitsValue_uint (u : uint) :
  digitsValue 10 0 (decimalDigits u) = Some (Pos.of_uint u).
Proof.
  induction u; [reflexivity | exact IHu | ..];
    exact (digitsValue_acc u _).
Qed.

Lemma spanDigits_all (cs : list ascii) :
  Forall (fun c => isDigit c = true) cs -> spanDigits cs = (cs, []).
Proof.
  induction 1 as [| c rest D _ IH]; [reflexivity |].
  cbn [spanDigits]. now rewrite D, IH.
Qed.

Lemma trimStart_plain (cs : list ascii) :
  Forall (fun c => isWhiteSpace c = false) cs -> trimStart cs = cs.
Proof. destruct 1 as [| c rest W _]; [reflexivity |]. cbn. now rewrite W. Qed.

Lemma trim_plain (cs : list ascii) :
  Forall (fun c => isWhiteSpace c = false) cs -> trim cs = cs.
Proof.
  intros F. unfold trim. rewrite (trimStart_plain cs F).
  rewrite trimStart_plain by now apply Forall_rev.
  apply rev_involutive.
Qed.

Lemma unsignedDecimalLiteral_digits (u : uint) :
  u <> Nil ->
  unsignedDecimalLiteral (decimalDigits u)
  = JFinite (inject_Z (Z.of_N (Pos.of_uint u)) * 10 ^ 0).
Proof.
  intros N. unfold unsignedDecimalLiteral.
  pose proof (decimalDigits_digits u) as F.
  rewrite (spanDigits_all _ F), app_nil_r, (digitsValue_uint u).
  destruct (decimalDigits_nonempty u N) as (c & rest & E).
  rewrite E in *. apply Forall_inv in F.
  destruct (isDigit_plain c F) as (_ & _ & _ & _ & _ & _ & _ & _ & _ & I).
  cbn [string_of_list_ascii String.eqb]. rewrite I.
  reflexivity.
Qed.

(** What the program stores is read back as the same integer. *)
Lemma StringToNumber_numberToString (n : Z) :
  exists q, StringToNumber (numberToString n) = JFinite q
            /\ q == inject_Z n.
Proof.
  assert (P : forall u, u <> Nil ->
            StringToNumber (NilEmpty.string_of_uint u)
            = unsignedDecimalLiteral (decimalDigits u)).
  { intros u N. unfold StringToNumber. fold (decimalDigits u).
    pose proof (decimalDigits_digits u) as F.
    rewrite trim_plain
      by (eapply Forall_impl; [| exact F];
          intros c D; apply (isDigit_plain c D)).
    destruct (decimalDigits_nonempty u N) as (c & rest & E).
    rewrite E in *.
    pose proof (Forall_inv F) as Dc. apply Forall_inv_tail in F.
    destruct (isDigit_plain c Dc)
      as (_ & _ & _ & _ & _ & _ & _ & Cp & Cm & _).
    rewrite Cp, Cm.
    destruct rest as [| m rest'].
    - now rewrite !andb_false_r.
    - destruct (isDigit_plain m (Forall_inv F))
        as (_ & Mx & MX & Mo & MO & Mb & MB & _).
      now rewrite Mx, MX, Mo, MO, Mb, MB, !andb_false_r. }
  assert (M : forall u, u <> Nil ->
            StringToNumber (String "-" (NilEmpty.string_of_uint u))
            = jsNegate (unsignedDecimalLiteral (decimalDigits u))).
  { intros u N. unfold StringToNumber.
    cbn [list_ascii_of_string]. fold (decimalDigits u).
    rewrite trim_plain.
    - reflexivity.
    - constructor; [reflexivity |].
      eapply Forall_impl; [| exact (decimalDigits_digits u)].
      intros c D. apply (isDigit_plain c D). }
  destruct n as [| p | p].
  - eexists. split; [vm_compute; reflexivity | reflexivity].
  - pose proof (DecimalPos.Unsigned.to_uint_nonnil p) as N.
    unfold numberToString. cbn [Z.to_int NilZero.string_of_int].
    replace (NilZero.string_of_uint (Pos.to_uint p))
      with (NilEmpty.string_of_uint (Pos.to_uint p))
      by (now destruct (Pos.to_uint p)).
    rewrite (P _ N), (unsignedDecimalLiteral_digits _ N),
      DecimalPos.Unsigned.of_to.
    eexists. split; [reflexivity |]. cbn [Z.of_N Qpower]. apply Qmult_1_r.
  - pose proof (DecimalPos.Unsigned.to_uint_nonnil p) as N.
    unfold numberToString. cbn [Z.to_int NilZero.string_of_int].
    replace (NilZero.string_of_uint (Pos.to_uint p))
      with (NilEmpty.string_of_uint (Pos.to_uint p))
      by (now destruct (Pos.to_uint p)).
    rewrite (M _ N), (unsignedDecimalLiteral_digits _ N),
      DecimalPos.Unsigned.of_to.
    eexists. split; [reflexivity |]. cbn [Z.of_N Qpower].
    rewrite Qmult_1_r. reflexivity.
Qed.

Lemma numberToString_nonempty (n : Z) :
  String.eqb (numberToString n) "" = false.
Proof.
  destruct n as [| p | p]; [reflexivity | | reflexivity].
  unfold numberToString. cbn [Z.to_int NilZero.string_of_int].
  pose proof (DecimalPos.Unsigned.to_uint_nonnil p) as N.
  destruct (Pos.to_uint p); [now destruct N | ..]; reflexivity.
Qed.

(** C5, as it holds of the code.  The start-up read gives 0 when
    nothing is stored under the key and when the empty string is; it
    gives the integer [n]
    when the stored text is the decimal encoding of [n], which is what the
    program itself stores; for every other stored text it gives what the
    string-to-number conversion gives, which is not 0 for a text that is
    not a number: "abc" and "12px" are read as [NaN], and "3.5" as
    7/2. *)
Theorem initialBest_read (st : Storage) :
  (getItem BEST_KEY st = None -> initialBest st = JFinite 0)
  /\ (getItem BEST_KEY st = Some ""%string -> initialBest st = JFinite 0)
  /\ (forall n,
        getItem BEST_KEY st = Some (numberToString n) ->
        exists q, initialBest st = JFinite q /\ q == inject_Z n)
  /\ (forall s,
        getItem BEST_KEY st = Some s -> s <> ""%string ->
        initialBest st = StringToNumber s)
  /\ StringToNumber "abc" = JNaN
  /\ StringToNumber "12px" = JNaN
  /\ (exists q, StringToNumber "3.5" = JFinite q /\ q == 7 # 2).
Proof.
  unfold initialBest.
  split; [now intros -> |]. split; [now intros -> |].
  split; [| split].
  - intros n ->. rewrite numberToString_nonempty.
    apply StringToNumber_numberToString.
  - intros s -> N. destruct (String.eqb_spec s ""); [contradiction | trivial].
  - split; [vm_compute; reflexivity |].
    split; [vm_compute; reflexivity |].
    eexists. split; vm_compute; reflexivity.
Qed.

(** Nothing stored, the empty string stored, "42" stored (as the program
    stores a best score of 42), and "abc" stored. *)
Lemma initialBest_read_witness :
  (getItem BEST_KEY [] = None /\ initialBest [] = JFinite 0)
  /\ (getItem BEST_KEY [(BEST_KEY, ""%string)] = Some ""%string
      /\ initialBest [(BEST_KEY, ""%string)] = JFinite 0)
  /\ (getItem BEST_KEY [(BEST_KEY, "42"%string)] = Some (numberToString 42)
      /\ exists q, initialBest [(BEST_KEY, "42"%string)] = JFinite q
                   /\ q == inject_Z 42)
  /\ (getItem BEST_KEY [(BEST_KEY, "abc"%string)] = Some "abc"%string
      /\ "abc"%string <> ""%string
      /\ initialBest [(BEST_KEY, "abc"%string)] = StringToNumber "abc").
Proof.
  assert (G0 : getItem BEST_KEY [] = None) by reflexivity.
  assert (G1 : getItem BEST_KEY [(BEST_KEY, ""%string)] = Some ""%string)
    by reflexivity.
  assert (G2 : getItem BEST_KEY [(BEST_KEY, "42"%string)]
               = Some (numberToString 42)) by reflexivity.
  assert (G3 : getItem BEST_KEY [(BEST_KEY, "abc"%string)]
               = Some "abc"%string) by reflexivity.
  assert (N3 : "abc"%string <> ""%string) by discriminate.
  destruct (initialBest_read []) as (R0 & _).
  destruct (initialBest_read [(BEST_KEY, ""%string)]) as (_ & R1 & _).
  destruct (initialBest_read [(BEST_KEY, "42"%string)]) as (_ & _ & R2 & _).
  destruct (initialBest_read [(BEST_KEY, "abc"%string)])
    as (_ & _ & _ & R3 & _).
  split; [split; [exact G0 | exact (R0 G0)] |].
  split; [split; [exact G1 | exact (R1 G1)] |].
  split; [split; [exact G2 | exact (R2 42%Z G2)] |].
  split; [exact G3 | split; [exact N3 | exact (R3 _ G3 N3)]].
Defined.

(** The claim as the specification has it fails: with the text "abc"
    stored under the key the read gives [NaN], which is not 0 and not any
    finite number. *)
Lemma initialBest_invalid_is_NaN :
  getItem BEST_KEY [(BEST_KEY, "abc"%string)] = Some "abc"%string
  /\ initialBest [(BEST_KEY, "abc"%string)] = JNaN
  /\ initialBest [(BEST_KEY, "abc"%string)] <> JFinite 0
  /\ ~ exists q, initialBest [(BEST_KEY, "abc"%string)] = JFinite q.
Proof.
  split; [reflexivity |]. split; [vm_compute; reflexivity |].
  split; [vm_compute; discriminate |].
  intros (q & E). vm_compute in E. discriminate E.
Qed.

(** * Further properties *)

(** ** One tick, part by part *)

Lemma spawnPipe_newPipe (r1 r2 : Q) (w : World) :
  spawnPipe r1 r2 w = set_pipes (pipes w ++ [newPipe (canvas w) r1 r2]) w.
Proof. reflexivity. Qed.

Lemma physics_frame (w : World) :
  canvas (physics w) = canvas w
  /\ mouthX (physics w) = mouthX w
  /\ pipes (physics w) = pipes w
  /\ lastPipeAt (physics w) = lastPipeAt w
  /\ isRunning (physics w) = isRunning w
  /\ lastTimestamp (physics w) = lastTimestamp w
  /\ backgroundOffset (physics w) = backgroundOffset w
  /\ scoring (physics w) = scoring w.
Proof.
  unfold physics. cbv zeta.
  repeat match goal with |- context [if ?c then _ else _] => destruct c end;
    repeat split; reflexivity.
Qed.

(** The three outcomes of the physics step on a running game: the ground
    is reached, nothing is clamped, or the ceiling is. *)
Lemma physics_cases (w : World) :
  isGameOver w = false ->
  let v1 := mouthVelY w + GRAVITY in
  let y1 := mouthY w + v1 in
  let g := groundLimit (canvas w) in
  (isGameOver (physics w) = true /\ mouthY (physics w) = g)
  \/ (isGameOver (physics w) = false
      /\ mouthVelY (physics w) = v1 /\ mouthY (physics w) = y1
      /\ 0 <= y1 /\ y1 <= g)
  \/ (isGameOver (physics w) = false
      /\ mouthVelY (physics w) = 0 /\ mouthY (physics w) = 0
      /\ y1 < 0 /\ 0 <= g).
Proof.
  intros H v1 y1 g.
  assert (P : physics w =
    let u := set_mouthY y1 (set_mouthVelY v1 w) in
    let u := if Qltb y1 0 then set_mouthVelY 0 (set_mouthY 0 u) else u in
    let g' := groundLimit (canvas u) in
    if Qltb g' (mouthY u)
    then set_isGameOver true (set_mouthY g' u) else u)
    by reflexivity.
  cbv zeta in P. rewrite P. clear P.
  destruct (Qltb y1 0) eqn:T1;
    [apply Qltb_lt in T1 | apply Qltb_ge in T1];
    cbn [canvas mouthY set_mouthY set_mouthVelY]; fold g;
    match goal with |- context [Qltb g ?y] =>
      destruct (Qltb g y) eqn:T2;
      [apply Qltb_lt in T2 | apply Qltb_ge in T2]
    end; cbn [isGameOver mouthY mouthVelY set_isGameOver set_mouthY
              set_mouthVelY]; auto 10.
Qed.

Lemma collides_same (w w' : World) (p : Pipe.t) :
  canvas w' = canvas w -> mouthY w' = mouthY w -> mouthX w' = mouthX w ->
  collides w' p = collides w p.
Proof. unfold collides. now intros -> -> ->. Qed.

Lemma collides_frame (w w' : World) (p : Pipe.t) :
  loopFrame w' = loopFrame w -> collides w' p = collides w p.
Proof.
  unfold loopFrame. intros F.
  injection F as Fc Fy Fx _ _ _ _ _ _. now apply collides_same.
Qed.

Lemma collides_markPassed (w : World) (mc : Q) (p : Pipe.t) :
  collides w (markPassed mc p) = collides w p.
Proof. unfold markPassed. now destruct (crossing mc p). Qed.

(** The loop ends the game when one of the obstacles it keeps overlaps
    the player, and only then. *)
Lemma pipesLoop_gameOver (ps : list Pipe.t) (w : World) :
  isGameOver (snd (pipesLoop ps w))
  = isGameOver w || existsb (collides w) (survivors (mouthCenter w) ps).
Proof.
  induction ps as [| p rest IH]; [cbn; now rewrite orb_false_r |].
  cbn [pipesLoop].
  pose proof (pipesLoop_frame rest w) as F.
  destruct (pipesLoop rest w) as [rest' w1]. cbn [fst snd] in IH, F.
  rewrite (pipeIteration_view p w1). cbv zeta.
  rewrite (mouthCenter_frame _ _ F).
  unfold survivors in *. cbn [map filter]. unfold onScreen at 1.
  destruct (offScreen (advance p)); cbn [negb snd map existsb]; [exact IH |].
  set (q := markPassed (mouthCenter w) (advance p)).
  set (w2 := if crossing (mouthCenter w) (advance p)
             then scorePoint w1 else w1).
  assert (F2 : loopFrame w2 = loopFrame w
               /\ isGameOver w2 = isGameOver w1).
  { subst w2. destruct (crossing _ _).
    - destruct (scorePoint_frame w1) as [A B]. split; congruence.
    - now split. }
  destruct F2 as [F2 O2].
  rewrite (collides_frame w w2 q F2).
  destruct (collides w q); cbn [isGameOver set_isGameOver].
  - now rewrite orb_true_r.
  - rewrite O2, IH. reflexivity.
Qed.

Lemma existsb_same {A : Type} (f g : A -> bool) (l : list A) :
  (forall a, f a = g a) -> existsb f l = existsb g l.
Proof.
  intros E. induction l as [| a l IH]; [reflexivity |].
  cbn. now rewrite E, IH.
Qed.

(** What a tick of a running game leaves in each variable. *)
Lemma update_parts (dt r1 r2 : Q) (w : World) :
  isGameOver w = false ->
  let spawn := Qltb PIPE_INTERVAL_MS (lastPipeAt w + dt) in
  canvas (update dt r1 r2 w) = canvas w
  /\ isRunning (update dt r1 r2 w) = isRunning w
  /\ lastTimestamp (update dt r1 r2 w) = lastTimestamp w
  /\ backgroundOffset (update dt r1 r2 w)
     = Qrem (backgroundOffset w + SCROLL_SPEED) (width (canvas w))
  /\ lastPipeAt (update dt r1 r2 w)
     = (if spawn then 0 else lastPipeAt w + dt)
  /\ pipes (update dt r1 r2 w)
     = survivors (mouthCenter w) (pipes w)
       ++ (if spawn then [newPipe (canvas w) r1 r2] else [])
  /\ isGameOver (update dt r1 r2 w)
     = isGameOver (physics w)
       || existsb (collides (physics w))
            (survivors (mouthCenter w) (pipes w)).
Proof.
  intros H spawn. rewrite (update_running dt r1 r2 w H). cbv zeta.
  destruct (physics_frame w) as (Pc & Px & Pp & Pl & Pr & Pt & Pb & _).
  set (u := physics w) in *. clearbody u.
  set (w2 := set_backgroundOffset _ u).
  pose proof (pipesLoop_frame (pipes w2) w2) as F.
  pose proof (pipesLoop_pipes (pipes w2) w2) as E.
  pose proof (pipesLoop_gameOver (pipes w2) w2) as O.
  set (L := pipesLoop (pipes w2) w2) in *. clearbody L.
  assert (C : forall p, collides w2 p = collides u p)
    by (intros p; now apply collides_same).
  rewrite (existsb_same _ _ _ C) in O. clear C.
  assert (M : mouthCenter w2 = mouthCenter w)
    by (unfold mouthCenter; subst w2; cbn; now rewrite Px).
  rewrite M in E, O. clear M.
  unfold loopFrame in F. injection F as Fc _ _ _ _ Fl Fr Ft Fb.
  subst w2.
  cbn [canvas pipes lastPipeAt isRunning lastTimestamp backgroundOffset
       isGameOver set_backgroundOffset] in *.
  rewrite Pp in E, O. rewrite Pc, Pb in Fb.
  cbn [lastPipeAt set_lastPipeAt set_pipes]. rewrite Fl, Pl. fold spawn.
  destruct spawn.
  - rewrite spawnPipe_newPipe.
    cbn [canvas isRunning lastTimestamp backgroundOffset lastPipeAt pipes
         isGameOver set_lastPipeAt set_pipes].
    rewrite Fc, Fr, Ft, Fb, E, O, Pc, Pr, Pt. repeat split.
  - cbn [canvas isRunning lastTimestamp backgroundOffset lastPipeAt pipes
         isGameOver set_lastPipeAt set_pipes].
    rewrite Fc, Fr, Ft, Fb, E, O, Pc, Pr, Pt, app_nil_r. repeat split.
Qed.

(** ** The player stays in the playfield *)

Lemma gameLoop_over (ts r1 r2 : Q) (w : World) :
  isGameOver w = true ->
  gameLoop ts r1 r2 w = set_lastTimestamp ts w.
Proof.
  intros H. unfold gameLoop, update.
  cbn [isGameOver set_lastTimestamp]. now rewrite H.
Qed.

Lemma flap_canvas_mouthY (now : Q) (w : World) :
  canvas (flap now w) = canvas w
  /\ (mouthY (flap now w) = mouthY w
      \/ mouthY (flap now w) = height (canvas w) / 2).
Proof.
  unfold flap.
  destruct (isRunning w); cbn [negb isGameOver set_lastTimestamp
                                set_isRunning];
    destruct (isGameOver w); split; try reflexivity;
    (left; reflexivity) || (right; reflexivity).
Qed.

Lemma step_inPlayfield (e : Event) (w : World) :
  isResize e = false -> 224 <= height (canvas w) -> inPlayfield w ->
  canvas (step e w) = canvas w /\ inPlayfield (step e w).
Proof.
  intros R Hh [I1 I2].
  assert (G : 0 <= groundLimit (canvas w))
    by (unfold groundLimit, GROUND_HEIGHT, MOUTH_SIZE; lra).
  destruct e as [ts r1 r2 | now | iw ih]; [| | discriminate R]; cbn [step].
  - destruct (isGameOver w) eqn:H.
    + rewrite (gameLoop_over ts r1 r2 w H). now split.
    + unfold gameLoop. set (w0 := set_lastTimestamp ts w).
      assert (H0 : isGameOver w0 = false) by exact H.
      destruct (update_player (Qmin 50 (ts - lastTimestamp w)) r1 r2 w0 H0)
        as (Ey & _ & _ & Ec & _).
      change (canvas w0) with (canvas w) in Ec.
      split; [exact Ec |]. unfold inPlayfield. rewrite Ey, Ec.
      destruct (physics_cases w0 H0) as [(_ & Y) | [(_ & _ & Y & A & B)
                                                   | (_ & _ & Y & _ & B)]];
        rewrite Y; change (canvas w0) with (canvas w) in *;
        split; trivial; apply Qle_refl.
  - destruct (flap_canvas_mouthY now w) as [Ec [Ey | Ey]];
      (split; [exact Ec |]); unfold inPlayfield; rewrite Ec, Ey;
      [now split |].
    change (height (canvas w) / 2) with (height (canvas w) * (1 # 2)).
    unfold groundLimit, GROUND_HEIGHT, MOUTH_SIZE. split; lra.
Qed.

(** X1. A tick of a running game on a canvas whose ground limit is not
    negative leaves the player between the ceiling and the ground limit,
    wherever the player was.  And on a canvas at least 224 high, a player
    that is in the playfield stays there over any sequence of frames and
    "activate" inputs, the restarts included. *)
Theorem player_stays_in_playfield :
  (forall dt r1 r2 w,
      isGameOver w = false -> 0 <= groundLimit (canvas w) ->
      inPlayfield (update dt r1 r2 w))
  /\ (forall es w,
        existsb isResize es = false -> 224 <= height (canvas w) ->
        inPlayfield w -> inPlayfield (run es w)).
Proof.
  split.
  - intros dt r1 r2 w H G.
    destruct (update_player dt r1 r2 w H) as (Ey & _ & _ & Ec & _).
    unfold inPlayfield. rewrite Ey, Ec.
    destruct (physics_cases w H) as [(_ & Y) | [(_ & _ & Y & A & B)
                                                | (_ & _ & Y & _ & B)]];
      rewrite Y; split; trivial; apply Qle_refl.
  - induction es as [| e es IH]; intros w R Hh I; [exact I |].
    cbn [existsb] in R. apply orb_false_iff in R as [Re Res].
    destruct (step_inPlayfield e w Re Hh I) as [Ec I'].
    cbn [run]. apply IH; trivial. now rewrite Ec.
Qed.

(** A tick that would take the player through the ceiling, and a frame,
    a flap and a frame from mid-height. *)
Lemma player_stays_in_playfield_witness :
  (isGameOver (playerWorld 1200 2 FLAP_STRENGTH) = false
   /\ 0 <= groundLimit (canvas (playerWorld 1200 2 FLAP_STRENGTH))
   /\ inPlayfield (update 16 0 0 (playerWorld 1200 2 FLAP_STRENGTH)))
  /\ (224 <= height (canvas scrollWorld)
      /\ inPlayfield scrollWorld
      /\ inPlayfield
           (run [Frame 16 0 0; Activate 20; Frame 32 0 0] scrollWorld)).
Proof.
  assert (H : isGameOver (playerWorld 1200 2 FLAP_STRENGTH) = false)
    by reflexivity.
  assert (G : 0 <= groundLimit (canvas (playerWorld 1200 2 FLAP_STRENGTH)))
    by (vm_compute; discriminate).
  assert (Hh : 224 <= height (canvas scrollWorld))
    by (vm_compute; discriminate).
  assert (I : inPlayfield scrollWorld)
    by (split; vm_compute; discriminate).
  destruct player_stays_in_playfield as [U R].
  split; [split; [exact H | split; [exact G | exact (U 16 0 0 _ H G)]] |].
  split; [exact Hh | split; [exact I |]].
  apply R; [reflexivity | exact Hh | exact I].
Defined.

(** ** Inputs *)

Lemma flap_running (now : Q) (w : World) :
  isGameOver w = false ->
  isGameOver (flap now w) = false
  /\ isRunning (flap now w) = true
  /\ forall now', flap now' (flap now w) = flap now w.
Proof.
  destruct w as [cv y x v ps l sc b r o t bo st]. cbn [isGameOver].
  intros ->. destruct r; repeat split.
Qed.

(** X3. On a game that is not over, a sequence of key, mouse and touch
    inputs has the effect of the first of them that activates, a pointer
    press or the space key, and of nothing else: later presses do not add
    to the velocity, and other keys do nothing at all. *)
Theorem inputs_do_not_compound (ins : list (Input * Q)) (w : World) :
  isGameOver w = false ->
  handleAll ins w
  = match firstActivation ins with
    | Some now => flap now w
    | None => w
    end.
Proof.
  revert w. induction ins as [| [i now] rest IH]; intros w H; [reflexivity |].
  cbn [handleAll firstActivation].
  assert (E : handle i now w = if activates i then flap now w else w)
    by (destruct i; reflexivity).
  rewrite E. destruct (activates i); [| now apply IH].
  destruct (flap_running now w H) as (H' & _ & I).
  rewrite (IH _ H'). destruct (firstActivation rest); [apply I | reflexivity].
Qed.

(** The key "a", a touch at time 10, the space key at 20 and a click at
    30, on the running [scrollWorld]: the effect is that of the touch. *)
Lemma inputs_do_not_compound_witness :
  isGameOver scrollWorld = false
  /\ handleAll [(KeyDown "KeyA" "a", 5); (TouchStart, 10);
                (KeyDown "Space" " ", 20); (MouseDown, 30)] scrollWorld
     = flap 10 scrollWorld.
Proof.
  assert (H : isGameOver scrollWorld = false) by reflexivity.
  split; [exact H |].
  exact (inputs_do_not_compound
           [(KeyDown "KeyA" "a", 5); (TouchStart, 10);
            (KeyDown "Space" " ", 20); (MouseDown, 30)] scrollWorld H).
Defined.

Lemma step_isRunning (e : Event) (w : World) :
  isRunning w = true -> isRunning (step e w) = true.
Proof.
  intros R. destruct e as [ts r1 r2 | now | iw ih]; cbn [step].
  - destruct (isGameOver w) eqn:H.
    + now rewrite (gameLoop_over ts r1 r2 w H).
    + unfold gameLoop.
      destruct (update_parts (Qmin 50 (ts - lastTimestamp w)) r1 r2
                  (set_lastTimestamp ts w) H) as (_ & E & _).
      rewrite E. exact R.
  - unfold flap. rewrite R. cbn [negb]. now destruct (isGameOver w).
  - exact R.
Qed.

(** X4. The frame loop, which reschedules itself while [isRunning] is
    true, is never stopped: no frame, input or resize clears [isRunning],
    and an "activate" sets it and leaves a game that is not over; so from
    the first "activate" of a sequence of events on, [isRunning] is
    true. *)
Theorem loop_never_stops :
  (forall e w, isRunning w = true -> isRunning (step e w) = true)
  /\ (forall now w,
        isRunning (flap now w) = true /\ isGameOver (flap now w) = false)
  /\ (forall es w,
        existsb isActivate es = true -> isRunning (run es w) = true).
Proof.
  assert (F : forall now w,
             isRunning (flap now w) = true /\ isGameOver (flap now w) = false).
  { intros now w. destruct w as [cv y x v ps l sc b r o t bo st].
    destruct r, o; split; reflexivity. }
  assert (K : forall es w, isRunning w = true -> isRunning (run es w) = true).
  { induction es as [| e es IH]; intros w R; [exact R |].
    cbn [run]. apply IH. now apply step_isRunning. }
  split; [exact step_isRunning | split; [exact F |]].
  induction es as [| e es IH]; intros w A; [discriminate A |].
  cbn [existsb] in A. cbn [run].
  destruct (isActivate e) eqn:Ae.
  - destruct e as [| now |]; try discriminate Ae.
    apply K. cbn [step]. apply F.
  - apply IH. exact A.
Qed.

(** From the page as it loads, a resize, the first press and a frame. *)
Lemma loop_never_stops_witness :
  existsb isActivate [Resize 400 900; Activate 10; Frame 26 0 0] = true
  /\ isRunning (initialWorld (mkCanvas 800 1200) 0 []) = false
  /\ isRunning (run [Resize 400 900; Activate 10; Frame 26 0 0]
                  (initialWorld (mkCanvas 800 1200) 0 [])) = true.
Proof.
  assert (A : existsb isActivate [Resize 400 900; Activate 10; Frame 26 0 0]
              = true) by reflexivity.
  destruct loop_never_stops as (_ & _ & R).
  split; [exact A | split; [reflexivity | exact (R _ _ A)]].
Defined.

(** ** How a game ends *)

Lemma physics_gameOver (w : World) :
  isGameOver w = false ->
  let y1 := mouthY w + (mouthVelY w + GRAVITY) in
  let g := groundLimit (canvas w) in
  isGameOver (physics w) = true <-> g < y1 \/ g < 0.
Proof.
  intros H y1 g.
  assert (P : physics w =
    let u := set_mouthY y1 (set_mouthVelY (mouthVelY w + GRAVITY) w) in
    let u := if Qltb y1 0 then set_mouthVelY 0 (set_mouthY 0 u) else u in
    let g' := groundLimit (canvas u) in
    if Qltb g' (mouthY u)
    then set_isGameOver true (set_mouthY g' u) else u)
    by reflexivity.
  cbv zeta in P. rewrite P. clear P.
  destruct (Qltb y1 0) eqn:T1;
    [apply Qltb_lt in T1 | apply Qltb_ge in T1];
    cbn [canvas mouthY set_mouthY set_mouthVelY]; fold g;
    match goal with |- context [Qltb g ?y] =>
      destruct (Qltb g y) eqn:T2;
      [apply Qltb_lt in T2 | apply Qltb_ge in T2]
    end; cbn [isGameOver set_isGameOver set_mouthY set_mouthVelY];
    rewrite ?H; split; intros K; try discriminate K; try reflexivity;
    auto; destruct K; exfalso; lra.
Qed.

(** X5. A tick of a running game ends the game in two cases only: the
    player, moved by the physics step, is beyond the ground limit, or one
    of the obstacles the tick keeps, at its new position, overlaps the
    player at the player's new position.  (An obstacle spawned by the tick
    is not tested in it.) *)
Theorem game_ends_only_on_contact (dt r1 r2 : Q) (w : World) :
  isGameOver w = false ->
  let w' := update dt r1 r2 w in
  let y1 := mouthY w + (mouthVelY w + GRAVITY) in
  isGameOver w' = true
  <-> (groundLimit (canvas w) < y1 \/ groundLimit (canvas w) < 0)
      \/ exists p, In p (survivors (mouthCenter w) (pipes w))
                   /\ collides w' p = true.
Proof.
  intros H w' y1.
  destruct (update_parts dt r1 r2 w H) as (Ec & _ & _ & _ & _ & _ & Eo).
  destruct (update_player dt r1 r2 w H) as (Ey & _ & Ex & _).
  fold w' in Ec, Eo, Ey, Ex. rewrite Eo, orb_true_iff, existsb_exists.
  rewrite (physics_gameOver w H).
  destruct (physics_frame w) as (Pc & Px & _).
  assert (C : forall p, collides w' p = collides (physics w) p)
    by (intros p; apply collides_same; congruence).
  split; (intros [G | (p & I & K)]; [now left | right; exists p]);
    (split; [exact I |]); [rewrite C | rewrite <- C]; exact K.
Qed.

(** The collision scenario: with the player at the height of the top
    barrier the tick ends the game; with the player in the gap it does
    not. *)
Lemma game_ends_only_on_contact_witness :
  (isGameOver (gapWorld 50) = false
   /\ isGameOver (update 16 0 0 (gapWorld 50)) = true)
  /\ (isGameOver (gapWorld 150) = false
      /\ ~ ((groundLimit (canvas (gapWorld 150)) < 150 + (0 + GRAVITY)
             \/ groundLimit (canvas (gapWorld 150)) < 0)
            \/ exists p,
                 In p (survivors (mouthCenter (gapWorld 150))
                         (pipes (gapWorld 150)))
                 /\ collides (update 16 0 0 (gapWorld 150)) p = true)).
Proof.
  assert (H1 : isGameOver (gapWorld 50) = false) by reflexivity.
  assert (H2 : isGameOver (gapWorld 150) = false) by reflexivity.
  split; (split; [assumption |]).
  - apply (game_ends_only_on_contact 16 0 0 (gapWorld 50) H1).
    right. eexists. split; [left; reflexivity | vm_compute; reflexivity].
  - intros K.
    apply (game_ends_only_on_contact 16 0 0 (gapWorld 150) H2) in K.
    vm_compute in K. discriminate K.
Defined.

(** X6. For a player in the playfield, an obstacle collides exactly when
    the player overlaps it horizontally and is not wholly inside its gap:
    above the gap's top edge or below its bottom edge.  So a player wholly
    inside the gap, or wholly beside the obstacle, never collides. *)
Theorem collision_iff_beside_and_outside_gap (w : World) (p : Pipe.t) :
  inPlayfield w ->
  (collides w p = true <-> besidePipe w p /\ outsideGap w p).
Proof.
  unfold inPlayfield, groundLimit, collides, rectsOverlap, besidePipe,
    outsideGap.
  intros [I1 I2].
  rewrite orb_true_iff, !andb_true_iff, !Qltb_lt.
  unfold GROUND_HEIGHT, MOUTH_SIZE in *.
  split.
  - intros [(((A & B) & C) & D) | (((A & B) & C) & D)];
      (split; [split; assumption |]); [left | right]; lra.
  - intros [[A B] [C | C]]; [left | right]; repeat split; trivial; lra.
Qed.

(** The player of the collision scenario, at the height of the top
    barrier, and the player in the middle of the gap. *)
Lemma collision_iff_beside_and_outside_gap_witness :
  (inPlayfield (gapWorld 50)
   /\ collides (gapWorld 50) (Pipe.mk 400 PIPE_WIDTH 100 150 false) = true)
  /\ (inPlayfield (gapWorld 150)
      /\ ~ outsideGap (gapWorld 150) (Pipe.mk 400 PIPE_WIDTH 100 150 false)
      /\ collides (gapWorld 150) (Pipe.mk 400 PIPE_WIDTH 100 150 false)
         = false).
Proof.
  assert (I1 : inPlayfield (gapWorld 50))
    by (split; vm_compute; discriminate).
  assert (I2 : inPlayfield (gapWorld 150))
    by (split; vm_compute; discriminate).
  assert (O : ~ outsideGap (gapWorld 150)
                  (Pipe.mk 400 PIPE_WIDTH 100 150 false))
    by (intros [K | K]; vm_compute in K; discriminate K).
  split; (split; [assumption |]).
  - apply (collision_iff_beside_and_outside_gap (gapWorld 50) _ I1).
    split; [split; reflexivity | left; reflexivity].
  - split; [exact O |].
    apply not_true_is_false. intros K.
    apply (collision_iff_beside_and_outside_gap (gapWorld 150) _ I2) in K.
    exact (O (proj2 K)).
Defined.

(** ** The tilt of the sprite *)

(** X14. The tilt [draw] gives the sprite is always between -1/2 and 1;
    it is the ninth of the velocity while that lies in this range, never
    decreases when the velocity grows, and right after a flap, whatever
    the velocity was, it is -1/2. *)
Theorem tilt_clamped :
  (forall w, - (1 # 2) <= tilt w /\ tilt w <= 1)
  /\ (forall w,
        - (9 # 2) <= mouthVelY w -> mouthVelY w <= 9 ->
        tilt w == mouthVelY w * (1 # 9))
  /\ (forall w w', mouthVelY w <= mouthVelY w' -> tilt w <= tilt w')
  /\ (forall now w,
        isGameOver w = false -> tilt (flap now w) == - (1 # 2)).
Proof.
  assert (T : forall w, tilt w
                        = Qmax (- (1 # 2)) (Qmin 1 (mouthVelY w * (1 # 9))))
    by reflexivity.
  split; [| split; [| split]].
  - intros w. rewrite T.
    destruct (Q.max_spec (- (1 # 2)) (Qmin 1 (mouthVelY w * (1 # 9))))
      as [[A ->] | [A ->]];
      destruct (Q.min_spec 1 (mouthVelY w * (1 # 9)))
        as [[B E] | [B E]]; rewrite ?E in *; split; lra.
  - intros w A B. rewrite T.
    rewrite (Q.min_r 1 (mouthVelY w * (1 # 9))) by lra.
    apply Q.max_r. lra.
  - intros w w' L. rewrite !T.
    apply Q.max_le_compat_l. apply Q.min_le_compat_l. lra.
  - intros now w H. destruct (flap_running now w H) as (_ & _ & _).
    assert (V : mouthVelY (flap now w) = FLAP_STRENGTH).
    { destruct w as [cv y x v ps l sc b r o t bo st]. cbn [isGameOver] in H.
      subst o. now destruct r. }
    rewrite T, V. vm_compute. reflexivity.
Qed.

(** A velocity of 4.5, and the flap of the running [scrollWorld]. *)
Lemma tilt_clamped_witness :
  (- (9 # 2) <= mouthVelY (playerWorld 1200 600 (9 # 2))
   /\ mouthVelY (playerWorld 1200 600 (9 # 2)) <= 9
   /\ tilt (playerWorld 1200 600 (9 # 2)) == (9 # 2) * (1 # 9))
  /\ (isGameOver scrollWorld = false
      /\ tilt (flap 10 scrollWorld) == - (1 # 2)).
Proof.
  assert (A : - (9 # 2) <= mouthVelY (playerWorld 1200 600 (9 # 2)))
    by (vm_compute; discriminate).
  assert (B : mouthVelY (playerWorld 1200 600 (9 # 2)) <= 9)
    by (vm_compute; discriminate).
  assert (H : isGameOver scrollWorld = false) by reflexivity.
  destruct tilt_clamped as (_ & R & _ & F).
  split; [split; [exact A | split; [exact B | exact (R _ A B)]] |].
  split; [exact H | exact (F 10 scrollWorld H)].
Defined.

(** ** The background texture *)

(** X13. Whatever load and error events the image reports, and in
    whatever order, the program asks for the PNG first and for the JPG at
    most once, after an error, and for nothing else: a second error
    changes nothing.  The pattern, when there is one, is made from the
    image held in [bgImg], and that image is one the program asked for. *)
Theorem texture_fallback_once (es : list Texture.event) :
  let s := Texture.after es Texture.start in
  ((Texture.requests s = [Texture.PNG]
    /\ Texture.triedJpg s = false /\ Texture.src s = Texture.PNG)
   \/ (Texture.requests s = [Texture.JPG; Texture.PNG]
       /\ Texture.triedJpg s = true /\ Texture.src s = Texture.JPG))
  /\ Texture.onerror (Texture.onerror s) = Texture.onerror s
  /\ (forall i, Texture.bgPattern s = Some i -> Texture.bgImg s = Some i)
  /\ (forall i, Texture.bgImg s = Some i -> In i (Texture.requests s)).
Proof.
  set (Inv := fun s : Texture.t =>
    ((Texture.requests s = [Texture.PNG]
      /\ Texture.triedJpg s = false /\ Texture.src s = Texture.PNG)
     \/ (Texture.requests s = [Texture.JPG; Texture.PNG]
         /\ Texture.triedJpg s = true /\ Texture.src s = Texture.JPG))
    /\ (forall i, Texture.bgPattern s = Some i -> Texture.bgImg s = Some i)
    /\ (forall i, Texture.bgImg s = Some i -> In i (Texture.requests s))).
  assert (K : forall es s, Inv s -> Inv (Texture.after es s)).
  { clear es. induction es as [| e es IH]; intros s I; [exact I |].
    cbn [Texture.after]. apply IH. clear IH.
    destruct s as [sr tj im pa rq]. destruct I as (R & P & M).
    cbn [Texture.requests Texture.triedJpg Texture.src Texture.bgPattern
         Texture.bgImg] in *.
    destruct e as [ok |]; unfold Inv; cbn.
    - split; [exact R |]. split.
      + destruct ok; [trivial | discriminate].
      + intros i [= <-].
        destruct R as [(-> & _ & ->) | (-> & _ & ->)]; cbn; auto.
    - destruct tj; cbn.
      + split; [exact R |]. now split.
      + destruct R as [(-> & _ & _) | (_ & F & _)]; [| discriminate F].
        split; [right; repeat split |]. split; [exact P |].
        intros i E. right. now apply M. }
  intros s.
  assert (I : Inv s).
  { apply K. unfold Inv. cbn. split; [left; repeat split |].
    split; discriminate. }
  destruct I as (R & P & M).
  split; [exact R |]. split; [| now split].
  destruct s as [sr tj im pa rq]. now destruct tj.
Qed.

(** ** The size of the canvas *)

Lemma Qmax_cases (a b : Q) : Qmax a b = a \/ Qmax a b = b.
Proof.
  unfold Qmax, GenericMinMax.gmax. destruct (a ?= b); auto.
Qed.

Lemma resizeCanvas_facts (iw ih : Q) (w : World) :
  let cv := canvas (resizeCanvas iw ih w) in
  320 <= width cv
  /\ (exists z, width cv = inject_Z z)
  /\ iw - 1 < width cv
  /\ height cv <= ih
  /\ height cv <= (3 # 2) * width cv
  /\ Qmin 480 ih <= height cv
  /\ ((3 # 2) * width cv <= ih -> (3 # 2) * width cv - 1 < height cv)
  /\ gameState (resizeCanvas iw ih w) = gameState w.
Proof.
  unfold resizeCanvas. cbv zeta.
  cbn [canvas set_canvas width height].
  set (W := Qmax 320 (inject_Z (Qfloor iw))).
  assert (W1 : 320 <= W) by apply Q.le_max_l.
  assert (W2 : inject_Z (Qfloor iw) <= W) by apply Q.le_max_r.
  change (3 / 2) with (3 # 2).
  pose proof (Qfloor_le ((3 # 2) * W)) as F1.
  pose proof (Qlt_floor ((3 # 2) * W)) as F2.
  rewrite inject_Z_plus in F2. change (inject_Z 1) with 1 in F2.
  assert (A480 : 480 <= inject_Z (Qfloor ((3 # 2) * W))).
  { change 480 with (inject_Z 480). rewrite <- Zle_Qle.
    rewrite <- (Qfloor_Z 480). apply Qfloor_resp_le.
    change (inject_Z 480) with 480. lra. }
  set (A := inject_Z (Qfloor ((3 # 2) * W))) in *.
  split; [exact W1 |]. split.
  { subst W. destruct (Qmax_cases 320 (inject_Z (Qfloor iw))) as [-> | ->];
      [now exists 320%Z | now eexists]. }
  split.
  { pose proof (Qlt_floor iw) as L. rewrite inject_Z_plus in L.
    change (inject_Z 1) with 1 in L. lra. }
  split; [apply Q.le_min_r |].
  split; [eapply Qle_trans; [apply Q.le_min_l | exact F1] |].
  split; [now apply Q.min_le_compat_r |].
  split; [| reflexivity].
  intros L.
  destruct (Q.min_spec A ih) as [[_ E] | [_ E]]; rewrite E; lra.
Qed.

(** X11. After a resize the canvas is at least 320 wide, its width is a
    whole number above the window width minus one, its height is at most
    the window height and at most three halves of its width, and at least
    the smaller of 480 and the window height; when the window is high
    enough for the 2:3 shape, the height is within one unit of three
    halves of the width.  The game itself is not touched. *)
Theorem resizeCanvas_bounds (iw ih : Q) (w : World) :
  let cv := canvas (resizeCanvas iw ih w) in
  320 <= width cv
  /\ (exists z, width cv = inject_Z z)
  /\ iw - 1 < width cv
  /\ height cv <= ih
  /\ height cv <= (3 # 2) * width cv
  /\ Qmin 480 ih <= height cv
  /\ ((3 # 2) * width cv <= ih -> (3 # 2) * width cv - 1 < height cv)
  /\ gameState (resizeCanvas iw ih w) = gameState w.
Proof. exact (resizeCanvas_facts iw ih w). Qed.

(** A window 400.5 wide and 900 high: the canvas is 400 by 600. *)
Lemma resizeCanvas_bounds_witness :
  (3 # 2) * width (canvas (resizeCanvas (801 # 2) 900 scrollWorld)) <= 900
  /\ (3 # 2) * width (canvas (resizeCanvas (801 # 2) 900 scrollWorld)) - 1
     < height (canvas (resizeCanvas (801 # 2) 900 scrollWorld)).
Proof.
  assert (L : (3 # 2)
              * width (canvas (resizeCanvas (801 # 2) 900 scrollWorld))
              <= 900) by (vm_compute; discriminate).
  destruct (resizeCanvas_bounds (801 # 2) 900 scrollWorld)
    as (_ & _ & _ & _ & _ & _ & F & _).
  split; [exact L | exact (F L)].
Defined.

(** An error on the PNG, then the JPG loads and its pattern is made. *)
Lemma texture_fallback_once_witness :
  Texture.bgPattern
    (Texture.after [Texture.Error; Texture.Load true] Texture.start)
  = Some Texture.JPG
  /\ Texture.bgImg
       (Texture.after [Texture.Error; Texture.Load true] Texture.start)
     = Some Texture.JPG
  /\ In Texture.JPG
       (Texture.requests
          (Texture.after [Texture.Error; Texture.Load true] Texture.start)).
Proof.
  assert (P : Texture.bgPattern
                (Texture.after [Texture.Error; Texture.Load true]
                   Texture.start) = Some Texture.JPG) by reflexivity.
  destruct (texture_fallback_once [Texture.Error; Texture.Load true])
    as (_ & _ & B & M).
  split; [exact P | split; [exact (B _ P) | exact (M _ (B _ P))]].
Defined.

(** ** The obstacles in the array *)

Lemma survivors_cons (mc : Q) (p : Pipe.t) (ps : list Pipe.t) :
  survivors mc (p :: ps)
  = if offScreen (advance p) then survivors mc ps
    else markPassed mc (advance p) :: survivors mc ps.
Proof.
  unfold survivors. cbn [map filter]. unfold onScreen at 1.
  now destruct (offScreen (advance p)).
Qed.

Lemma survivors_length (mc : Q) (ps : list Pipe.t) :
  (List.length (survivors mc ps) <= List.length ps)%nat.
Proof.
  induction ps as [| p ps IH]; [apply Nat.le_refl |].
  rewrite survivors_cons. destruct (offScreen (advance p)); cbn; lia.
Qed.

Lemma survivors_inRange (cv : Canvas) (mc : Q) (ps : list Pipe.t) :
  Forall (pipeInRange cv) ps -> Forall (pipeInRange cv) (survivors mc ps).
Proof.
  intros F. induction F as [| p ps (W & _ & R) _ IH]; [constructor |].
  rewrite survivors_cons. destruct (offScreen (advance p)) eqn:O; [exact IH |].
  constructor; [| exact IH].
  destruct (markPassed_geometry mc p) as (Gx & Gw & _).
  unfold pipeInRange. rewrite Gx, Gw.
  assert (K : ~ Pipe.x p - SCROLL_SPEED + Pipe.width p < - (10))
    by (rewrite <- offScreen_advance, O; discriminate).
  unfold SCROLL_SPEED in *. repeat split; [exact W | lra | lra].
Qed.

Lemma survivors_sorted (mc : Q) (ps : list Pipe.t) :
  StronglySorted (fun p q => Pipe.x p <= Pipe.x q) ps ->
  StronglySorted (fun p q => Pipe.x p <= Pipe.x q) (survivors mc ps).
Proof.
  intros S. induction S as [| p ps _ IH F]; [constructor |].
  rewrite survivors_cons. destruct (offScreen (advance p)); [exact IH |].
  constructor; [exact IH |].
  apply Forall_forall. intros q' I.
  apply survivors_In in I as (q & I & _ & ->).
  rewrite Forall_forall in F. specialize (F q I).
  destruct (markPassed_geometry mc p) as (-> & _).
  destruct (markPassed_geometry mc q) as (-> & _). lra.
Qed.

Lemma sorted_snoc (ps : list Pipe.t) (a : Pipe.t) :
  StronglySorted (fun p q => Pipe.x p <= Pipe.x q) ps ->
  Forall (fun p => Pipe.x p <= Pipe.x a) ps ->
  StronglySorted (fun p q => Pipe.x p <= Pipe.x q) (ps ++ [a]).
Proof.
  intros S. induction S as [| p ps _ IH F]; intros B.
  - repeat constructor.
  - cbn [app]. apply Forall_cons_iff in B as [Bp Bps].
    constructor; [now apply IH |].
    apply Forall_app. split; [exact F | now constructor].
Qed.

Lemma update_pipesInOrder (dt r1 r2 : Q) (w : World) :
  0 <= width (canvas w) -> pipesInOrder (canvas w) (pipes w) ->
  canvas (update dt r1 r2 w) = canvas w
  /\ pipesInOrder (canvas w) (pipes (update dt r1 r2 w)).
Proof.
  intros W [R S]. destruct (isGameOver w) eqn:H.
  - unfold update. rewrite H. now split.
  - destruct (update_parts dt r1 r2 w H) as (Ec & _ & _ & _ & _ & Ep & _).
    split; [exact Ec |]. rewrite Ep.
    pose proof (survivors_inRange _ (mouthCenter w) _ R) as R'.
    pose proof (survivors_sorted (mouthCenter w) _ S) as S'.
    destruct (Qltb PIPE_INTERVAL_MS (lastPipeAt w + dt));
      [| rewrite app_nil_r; now split].
    assert (N : pipeInRange (canvas w) (newPipe (canvas w) r1 r2)).
    { unfold pipeInRange, newPipe, PIPE_WIDTH. cbn [Pipe.width Pipe.x].
      repeat split; lra. }
    split.
    + apply Forall_app. split; [exact R' | now constructor].
    + apply sorted_snoc; [exact S' |].
      eapply Forall_impl; [| exact R']. intros q (_ & _ & B). exact B.
Qed.

Lemma step_pipesInOrder (e : Event) (w : World) :
  isResize e = false ->
  0 <= width (canvas w) -> pipesInOrder (canvas w) (pipes w) ->
  canvas (step e w) = canvas w
  /\ pipesInOrder (canvas w) (pipes (step e w)).
Proof.
  intros R W I. destruct e as [ts r1 r2 | now | iw ih]; [| | discriminate R];
    cbn [step].
  - unfold gameLoop.
    exact (update_pipesInOrder _ r1 r2 (set_lastTimestamp ts w) W I).
  - destruct w as [cv y x v ps l sc b r o t bo st].
    destruct r, o; (split; [reflexivity |]); try exact I;
      split; constructor.
Qed.

(** X7. The array of obstacles keeps its shape: if every obstacle has
    the width of a spawned one and lies between the removal line and the
    spawn point, and the obstacles are in the array from left to right,
    then the same holds after a tick, whether it removes obstacles, spawns
    one or ends the game, and after any sequence of frames and "activate"
    inputs on a canvas that is not resized.  A restart starts from the
    empty array, which has that shape. *)
Theorem obstacles_stay_in_order :
  (forall dt r1 r2 w,
      0 <= width (canvas w) -> pipesInOrder (canvas w) (pipes w) ->
      pipesInOrder (canvas (update dt r1 r2 w)) (pipes (update dt r1 r2 w)))
  /\ (forall es w,
        existsb isResize es = false ->
        0 <= width (canvas w) -> pipesInOrder (canvas w) (pipes w) ->
        pipesInOrder (canvas (run es w)) (pipes (run es w)))
  /\ (forall w, pipesInOrder (canvas (resetGame w)) (pipes (resetGame w))).
Proof.
  split; [| split].
  - intros dt r1 r2 w W I.
    destruct (update_pipesInOrder dt r1 r2 w W I) as [-> I']. exact I'.
  - induction es as [| e es IH]; intros w R W I; [exact I |].
    cbn [existsb] in R. apply orb_false_iff in R as [Re Res].
    destruct (step_pipesInOrder e w Re W I) as [Ec I'].
    cbn [run]. apply IH; [exact Res | now rewrite Ec | now rewrite Ec].
  - intros w. split; constructor.
Qed.

(** On [scrollWorld]: a frame, a flap and a frame. *)
Lemma obstacles_stay_in_order_witness :
  0 <= width (canvas scrollWorld)
  /\ pipesInOrder (canvas scrollWorld) (pipes scrollWorld)
  /\ pipesInOrder
       (canvas (run [Frame 16 (1 # 2) (1 # 2); Activate 20;
                     Frame 32 (1 # 2) (1 # 2)] scrollWorld))
       (pipes (run [Frame 16 (1 # 2) (1 # 2); Activate 20;
                    Frame 32 (1 # 2) (1 # 2)] scrollWorld)).
Proof.
  assert (W : 0 <= width (canvas scrollWorld)) by (vm_compute; discriminate).
  assert (I : pipesInOrder (canvas scrollWorld) (pipes scrollWorld)).
  { split; repeat constructor; vm_compute; discriminate. }
  destruct obstacles_stay_in_order as (_ & R & _).
  split; [exact W | split; [exact I |]].
  apply R; [reflexivity | exact W | exact I].
Defined.

(** ** The spawn timer *)

Lemma gameLoop_timer (ts r1 r2 : Q) (w : World) :
  lastPipeAt w + 50 <= PIPE_INTERVAL_MS ->
  lastPipeAt (gameLoop ts r1 r2 w) <= lastPipeAt w + 50
  /\ (List.length (pipes (gameLoop ts r1 r2 w))
      <= List.length (pipes w))%nat.
Proof.
  intros L. destruct (isGameOver w) eqn:H.
  - rewrite (gameLoop_over ts r1 r2 w H). cbn. split; [lra | lia].
  - unfold gameLoop. set (dt := Qmin 50 (ts - lastTimestamp w)).
    assert (D : dt <= 50) by apply Q.le_min_l.
    destruct (update_parts dt r1 r2 (set_lastTimestamp ts w) H)
      as (_ & _ & _ & _ & El & Ep & _).
    cbn [lastPipeAt pipes set_lastTimestamp canvas] in El, Ep.
    assert (T : Qltb PIPE_INTERVAL_MS (lastPipeAt w + dt) = false)
      by (apply Qltb_ge; lra).
    rewrite T in El, Ep. rewrite El, Ep, app_nil_r.
    split; [lra | apply survivors_length].
Qed.

(** X8. A tick adds at most one obstacle, and it adds one exactly when
    the timer, with the elapsed time added, exceeds the interval; the
    timer then restarts from 0, without the excess.  Since a frame counts
    for at most 50 ms, a sequence of frames spawns nothing as long as the
    timer plus 50 ms for each frame does not exceed the interval: after a
    spawn, the next 28 frames spawn nothing. *)
Theorem spawns_are_spaced :
  (forall dt r1 r2 w,
      (List.length (pipes (update dt r1 r2 w))
       <= S (List.length (pipes w)))%nat)
  /\ (forall dt r1 r2 w,
        isGameOver w = false ->
        (PIPE_INTERVAL_MS < lastPipeAt w + dt ->
         lastPipeAt (update dt r1 r2 w) = 0
         /\ pipes (update dt r1 r2 w)
            = survivors (mouthCenter w) (pipes w)
              ++ [newPipe (canvas w) r1 r2])
        /\ (lastPipeAt w + dt <= PIPE_INTERVAL_MS ->
            lastPipeAt (update dt r1 r2 w) = lastPipeAt w + dt
            /\ pipes (update dt r1 r2 w)
               = survivors (mouthCenter w) (pipes w)))
  /\ (forall es w,
        forallb isFrame es = true ->
        lastPipeAt w + 50 * inject_Z (Z.of_nat (List.length es))
        <= PIPE_INTERVAL_MS ->
        (List.length (pipes (run es w)) <= List.length (pipes w))%nat).
Proof.
  split; [| split].
  - intros dt r1 r2 w. destruct (isGameOver w) eqn:H.
    + unfold update. rewrite H. lia.
    + destruct (update_parts dt r1 r2 w H) as (_ & _ & _ & _ & _ & Ep & _).
      rewrite Ep, length_app.
      pose proof (survivors_length (mouthCenter w) (pipes w)).
      destruct (Qltb _ _); cbn [List.length]; lia.
  - intros dt r1 r2 w H.
    destruct (update_parts dt r1 r2 w H) as (_ & _ & _ & _ & El & Ep & _).
    split; intros L.
    + apply Qltb_lt in L. rewrite L in El, Ep. now split.
    + apply Qltb_ge in L. rewrite L in El, Ep.
      rewrite app_nil_r in Ep. now split.
  - induction es as [| e es IH]; intros w F L; [apply Nat.le_refl |].
    cbn [forallb] in F. apply andb_true_iff in F as [Fe Fes].
    destruct e as [ts r1 r2 | |]; try discriminate Fe.
    cbn [List.length] in L. rewrite inject_Z_succ in L.
    pose proof (inject_Z_nat_nonneg (List.length es)) as P.
    destruct (gameLoop_timer ts r1 r2 w) as [T N]; [lra |].
    cbn [run step]. etransitivity; [apply IH | exact N]; [exact Fes | lra].
Qed.

(** On [scrollWorld] the timer is at 0: 28 frames, however far apart,
    spawn nothing. *)
Lemma spawns_are_spaced_witness :
  forallb isFrame (map (fun n => Frame (inject_Z (Z.of_nat n) * 1000) 0 0)
                     (seq 1 28)) = true
  /\ lastPipeAt scrollWorld + 50 * inject_Z (Z.of_nat 28) <= PIPE_INTERVAL_MS
  /\ (List.length
        (pipes (run (map (fun n => Frame (inject_Z (Z.of_nat n) * 1000) 0 0)
                       (seq 1 28)) scrollWorld))
      <= List.length (pipes scrollWorld))%nat.
Proof.
  assert (F : forallb isFrame
                (map (fun n => Frame (inject_Z (Z.of_nat n) * 1000) 0 0)
                   (seq 1 28)) = true) by reflexivity.
  assert (L : lastPipeAt scrollWorld + 50 * inject_Z (Z.of_nat 28)
              <= PIPE_INTERVAL_MS) by (vm_compute; discriminate).
  destruct spawns_are_spaced as (_ & _ & R).
  split; [exact F | split; [exact L |]].
  apply (R _ scrollWorld F). exact L.
Defined.

(** ** The background offset *)

Lemma Qtrunc_floor (q : Q) : 0 <= q -> Qtrunc q = Qfloor q.
Proof.
  destruct q as [n d]. unfold Qle, Qtrunc, Qfloor. cbn.
  intros H. apply Z.quot_div_nonneg; lia.
Qed.

(** The remainder as a multiple count: [a % b] is [a - b * t] for a whole
    number [t], and lies in [0, b). *)
Lemma Qrem_spec (a b : Q) :
  0 <= a -> 0 < b ->
  exists t : Z,
    Qrem a b = a - b * inject_Z t
    /\ 0 <= a - b * inject_Z t /\ a - b * inject_Z t < b.
Proof.
  intros A B. unfold Qrem. exists (Qfloor (a / b)).
  assert (Q0 : 0 <= a / b).
  { apply Qle_shift_div_l; [exact B | lra]. }
  rewrite (Qtrunc_floor _ Q0). split; [reflexivity |].
  pose proof (Qfloor_le (a / b)) as F1.
  pose proof (Qlt_floor (a / b)) as F2.
  rewrite inject_Z_plus in F2. change (inject_Z 1) with 1 in F2.
  assert (E : a == b * (a / b)).
  { symmetry. apply Qmult_div_r. intros Z. rewrite Z in B.
    exact (Qlt_irrefl 0 B). }
  set (q := a / b) in *. set (t := inject_Z (Qfloor q)) in *.
  split; nra.
Qed.

Lemma whole_between (t : Z) :
  - (1) < inject_Z t -> inject_Z t < 2 -> t = 0%Z \/ t = 1%Z.
Proof.
  change (- (1)) with (inject_Z (-1)). change 2 with (inject_Z 2).
  rewrite <- !Zlt_Qlt. lia.
Qed.

(** X9. A tick of a running game on a canvas of positive width takes a
    background offset that is not negative to an offset in
    [0, canvas.width); and when the offset was in that range already, on a
    canvas at least as wide as one scroll step, the new offset is the old
    one plus the scroll speed, less the width if that reaches it. *)
Theorem background_offset_wraps (dt r1 r2 : Q) (w : World) :
  isGameOver w = false ->
  0 < width (canvas w) -> 0 <= backgroundOffset w ->
  let off := backgroundOffset (update dt r1 r2 w) in
  (0 <= off /\ off < width (canvas w))
  /\ (backgroundOffset w < width (canvas w) ->
      SCROLL_SPEED <= width (canvas w) ->
      (backgroundOffset w + SCROLL_SPEED < width (canvas w)
       /\ off == backgroundOffset w + SCROLL_SPEED)
      \/ (width (canvas w) <= backgroundOffset w + SCROLL_SPEED
          /\ off == backgroundOffset w + SCROLL_SPEED - width (canvas w))).
Proof.
  intros H W B off.
  destruct (update_parts dt r1 r2 w H) as (_ & _ & _ & Eb & _).
  subst off. rewrite Eb. clear Eb.
  assert (A : 0 <= backgroundOffset w + SCROLL_SPEED)
    by (unfold SCROLL_SPEED; lra).
  destruct (Qrem_spec _ _ A W) as (t & -> & R1 & R2).
  split; [now split |]. intros L S.
  set (a := backgroundOffset w + SCROLL_SPEED) in *.
  set (b := width (canvas w)) in *.
  assert (T : t = 0%Z \/ t = 1%Z).
  { apply whole_between.
    - assert (K : b * (- (1)) < b * inject_Z t) by lra.
      apply Qnot_le_lt. intros C. nra.
    - assert (K : b * inject_Z t < b * 2) by (unfold a in *; lra).
      apply Qnot_le_lt. intros C. nra. }
  destruct T as [-> | ->].
  - change (inject_Z 0) with 0 in *. left. split; lra.
  - change (inject_Z 1) with 1 in *. right. split; lra.
Qed.

(** On the 800 wide canvas: from 0 to 2.6, and from 799 around to 1.6. *)
Lemma background_offset_wraps_witness :
  (isGameOver scrollWorld = false
   /\ 0 < width (canvas scrollWorld)
   /\ 0 <= backgroundOffset scrollWorld
   /\ backgroundOffset (update 16 0 0 scrollWorld) < width (canvas scrollWorld))
  /\ (backgroundOffset (set_backgroundOffset 799 scrollWorld) < 800
      /\ SCROLL_SPEED <= 800
      /\ 800 <= 799 + SCROLL_SPEED
      /\ backgroundOffset (update 16 0 0 (set_backgroundOffset 799 scrollWorld))
         == 799 + SCROLL_SPEED - 800).
Proof.
  assert (H : isGameOver scrollWorld = false) by reflexivity.
  assert (W : 0 < width (canvas scrollWorld)) by reflexivity.
  assert (B : 0 <= backgroundOffset scrollWorld)
    by (vm_compute; discriminate).
  assert (B' : 0 <= backgroundOffset (set_backgroundOffset 799 scrollWorld))
    by (vm_compute; discriminate).
  assert (L : backgroundOffset (set_backgroundOffset 799 scrollWorld) < 800)
    by reflexivity.
  assert (S : SCROLL_SPEED <= 800) by (vm_compute; discriminate).
  assert (G : 800 <= 799 + SCROLL_SPEED) by (vm_compute; discriminate).
  destruct (background_offset_wraps 16 0 0 scrollWorld H W B) as [[_ R] _].
  destruct (background_offset_wraps 16 0 0
              (set_backgroundOffset 799 scrollWorld) H W B') as [_ K].
  split; [repeat split; assumption |].
  split; [exact L | split; [exact S | split; [exact G |]]].
  destruct (K L S) as [[C _] | [_ E]]; [| exact E].
  exfalso. cbn [backgroundOffset set_backgroundOffset canvas width
                scrollWorld] in C.
  exact (Qlt_not_le _ _ C G).
Defined.

(** ** The stored best score *)

Lemma synced_same (w w' : World) :
  best w' = best w -> localStorage w' = localStorage w ->
  synced w -> synced w'.
Proof. unfold synced. now intros -> ->. Qed.

Lemma scorePoint_synced (w : World) : synced w -> synced (scorePoint w).
Proof.
  intros S. unfold scorePoint. cbn [score best set_score].
  destruct (Qltb (best w) (inject_Z (score w + 1))); [| exact S].
  unfold synced, initialBest.
  cbn [score best localStorage set_score set_best set_localStorage setItem
       getItem].
  change (String.eqb BEST_KEY BEST_KEY) with true. cbn iota.
  rewrite numberToString_nonempty.
  apply StringToNumber_numberToString.
Qed.

Lemma pipesLoop_synced (ps : list Pipe.t) (w : World) :
  synced w -> synced (snd (pipesLoop ps w)).
Proof.
  intros S. induction ps as [| p rest IH]; [exact S |].
  cbn [pipesLoop].
  destruct (pipesLoop rest w) as [rest' w1]. cbn [snd] in IH.
  rewrite (pipeIteration_view p w1). cbv zeta.
  destruct (offScreen (advance p)); cbn [snd]; [exact IH |].
  assert (S1 : synced (if crossing (mouthCenter w1) (advance p)
                       then scorePoint w1 else w1))
    by (destruct (crossing _ _); [now apply scorePoint_synced | exact IH]).
  destruct (collides _ _); [| exact S1].
  exact (synced_same _ _ eq_refl eq_refl S1).
Qed.

Lemma update_synced (dt r1 r2 : Q) (w : World) :
  synced w -> synced (update dt r1 r2 w).
Proof.
  intros S. destruct (isGameOver w) eqn:H.
  - unfold update. now rewrite H.
  - rewrite (update_running dt r1 r2 w H). cbv zeta.
    set (w2 := set_backgroundOffset _ (physics w)).
    assert (S2 : synced w2).
    { destruct (physics_frame w) as (_ & _ & _ & _ & _ & _ & _ & E).
      unfold scoring in E. injection E as _ Eb El.
      exact (synced_same w w2 Eb El S). }
    pose proof (pipesLoop_synced (pipes w2) w2 S2) as S3.
    destruct (Qltb PIPE_INTERVAL_MS _);
      exact (synced_same _ _ eq_refl eq_refl S3).
Qed.

Lemma step_synced (e : Event) (w : World) : synced w -> synced (step e w).
Proof.
  intros S. destruct e as [ts r1 r2 | now | iw ih]; cbn [step].
  - unfold gameLoop. apply update_synced.
    exact (synced_same _ _ eq_refl eq_refl S).
  - destruct (flap_scoring now w) as (B & L & _).
    exact (synced_same _ _ B L S).
  - exact (synced_same _ _ eq_refl eq_refl S).
Qed.

(** X10. The storage follows the best score: if what is stored under
    the key reads back as the best score, it still does after any
    sequence of frames, inputs and resizes, so that the page loaded again
    starts with the best score reached.  That is so at start-up, both
    when nothing is stored and the best score is 0 and when the best score
    is the integer stored. *)
Theorem storage_follows_best :
  (forall es w, synced w -> synced (run es w))
  /\ (forall cv st,
        getItem BEST_KEY st = None -> synced (initialWorld cv 0 st))
  /\ (forall cv st n,
        getItem BEST_KEY st = Some (numberToString n) ->
        synced (initialWorld cv (inject_Z n) st)).
Proof.
  split; [| split].
  - induction es as [| e es IH]; intros w S; [exact S |].
    cbn [run]. apply IH. now apply step_synced.
  - intros cv st G. exists 0. unfold initialBest.
    cbn [localStorage best initialWorld]. rewrite G. now split.
  - intros cv st n G. unfold synced, initialBest.
    cbn [localStorage best initialWorld].
    rewrite G, numberToString_nonempty.
    apply StringToNumber_numberToString.
Qed.

(** From the page loaded with "5" stored, at a score of 5 and with two
    obstacles left of the player: the first frame passes both, and what
    is stored reads back as the best score. *)
Lemma storage_follows_best_witness :
  getItem BEST_KEY [(BEST_KEY, "5"%string)] = Some (numberToString 5)
  /\ synced (initialWorld (mkCanvas 800 1200) (inject_Z 5)
               [(BEST_KEY, "5"%string)])
  /\ synced (run [Activate 0; Frame 16 0 0; Frame 32 0 0]
               (set_score 5%Z
                  (set_pipes [Pipe.mk 0 PIPE_WIDTH 100 150 false;
                              Pipe.mk 100 PIPE_WIDTH 100 150 false]
                     (initialWorld (mkCanvas 800 1200) (inject_Z 5)
                        [(BEST_KEY, "5"%string)])))).
Proof.
  assert (G : getItem BEST_KEY [(BEST_KEY, "5"%string)]
              = Some (numberToString 5)) by reflexivity.
  destruct storage_follows_best as (R & _ & I).
  pose proof (I (mkCanvas 800 1200) _ 5%Z G) as S.
  split; [exact G | split; [exact S |]].
  apply R. exact (synced_same _ _ eq_refl eq_refl S).
Defined.

(** ** No obstacle leaves uncounted *)





(** ** Spawning on a resized canvas *)

(** X12. On a canvas sized by [resizeCanvas] for a window more than 360
    high, every obstacle spawned with draws in [0, 1) is well placed: its
    top barrier is at least 40 high, its gap ends at least 40 above the
    ground strip, and its bottom barrier has a positive height. *)
Theorem resized_canvas_places_gaps (iw ih r1 r2 : Q) (w : World) :
  360 < ih -> 0 <= r1 -> r1 < 1 -> 0 <= r2 -> r2 < 1 ->
  let w' := resizeCanvas iw ih w in
  let p := newPipe (canvas w') r1 r2 in
  pipes (spawnPipe r1 r2 w') = pipes w ++ [p]
  /\ 40 <= Pipe.topHeight p
  /\ Pipe.topHeight p + Pipe.gap p
     <= height (canvas w') - GROUND_HEIGHT - 40
  /\ 40 <= height (canvas w') - GROUND_HEIGHT
           - (Pipe.topHeight p + Pipe.gap p).
Proof.
  intros I A1 B1 A2 B2 w' p.
  destruct (resizeCanvas_facts iw ih w) as (_ & _ & _ & _ & _ & M & _).
  fold w' in M.
  assert (Hh : 360 < height (canvas w')).
  { eapply Qlt_le_trans; [| exact M]. apply Q.min_glb_lt; [reflexivity |].
    exact I. }
  split; [reflexivity |].
  subst p. unfold newPipe. cbv zeta.
  cbn [Pipe.topHeight Pipe.gap].
  unfold PIPE_GAP_MIN, PIPE_GAP_MAX, GROUND_HEIGHT.
  set (h := height (canvas w')) in *.
  set (gap := 140 + r1 * (200 - 140)).
  assert (G1 : 140 <= gap) by (subst gap; nra).
  assert (G2 : gap <= 200) by (subst gap; nra).
  set (b := h - 80 - 40 - gap).
  assert (Bb : 40 < b) by (subst b; lra).
  repeat split; subst b; nra.
Qed.

(** A window 400 by 700, with both draws at 1/2. *)
Lemma resized_canvas_places_gaps_witness :
  (360 < 700 /\ 0 <= 1 # 2 /\ (1 # 2) < 1)
  /\ 40 <= Pipe.topHeight
             (newPipe (canvas (resizeCanvas 400 700 scrollWorld))
                (1 # 2) (1 # 2)).
Proof.
  assert (I : 360 < 700) by reflexivity.
  assert (A : 0 <= 1 # 2) by (vm_compute; discriminate).
  assert (B : (1 # 2) < 1) by reflexivity.
  destruct (resized_canvas_places_gaps 400 700 (1 # 2) (1 # 2) scrollWorld
              I A B A B) as (_ & T & _).
  split; [repeat split; assumption | exact T].
Defined.

(** ** A game left alone ends *)

Lemma ticksFor_enough (x : Q) :
  x <= inject_Z (Z.of_nat (ticksFor x)) * GRAVITY.
Proof.
  unfold ticksFor.
  pose proof (Qle_ceiling (x / GRAVITY)) as C.
  assert (L : inject_Z (Qceiling (x / GRAVITY))
              <= inject_Z (Z.of_nat (Z.to_nat (Qceiling (x / GRAVITY)))))
    by (rewrite <- Zle_Qle; lia).
  assert (E : x == GRAVITY * (x / GRAVITY))
    by (symmetry; apply Qmult_div_r; discriminate).
  set (q := x / GRAVITY) in *.
  set (n := inject_Z (Z.of_nat (Z.to_nat (Qceiling q)))) in *.
  unfold GRAVITY in *. nra.
Qed.

Lemma frames_keep_over (es : list Event) (w : World) :
  isGameOver w = true -> forallb isFrame es = true ->
  isGameOver (run es w) = true.
Proof.
  revert w. induction es as [| e es IH]; intros w H F; [exact H |].
  cbn [forallb] in F. apply andb_true_iff in F as [Fe Fes].
  destruct e as [ts r1 r2 | |]; try discriminate Fe.
  cbn [run step]. apply IH; [| exact Fes].
  now rewrite (gameLoop_over ts r1 r2 w H).
Qed.

(** A frame of a running game: the game is over, or the player has moved
    by the new velocity, or has been stopped at the ceiling. *)
Lemma frame_physics (ts r1 r2 : Q) (w : World) :
  isGameOver w = false ->
  let w' := gameLoop ts r1 r2 w in
  let v1 := mouthVelY w + GRAVITY in
  let y1 := mouthY w + v1 in
  canvas w' = canvas w
  /\ (isGameOver w' = true
      \/ (mouthVelY w' = v1 /\ mouthY w' = y1
          /\ 0 <= y1 /\ y1 <= groundLimit (canvas w))
      \/ (mouthVelY w' = 0 /\ mouthY w' = 0
          /\ y1 < 0 /\ 0 <= groundLimit (canvas w))).
Proof.
  intros H w' v1 y1. subst w'. unfold gameLoop.
  set (w0 := set_lastTimestamp ts w).
  assert (H0 : isGameOver w0 = false) by exact H.
  destruct (update_player (Qmin 50 (ts - lastTimestamp w)) r1 r2 w0 H0)
    as (Ey & Ev & _ & Ec & Eo).
  split; [exact Ec |]. rewrite Ey, Ev.
  destruct (physics_cases w0 H0) as [(O & _) | [(_ & K) | (_ & K)]].
  - left. now apply Eo.
  - right. left. exact K.
  - right. right. exact K.
Qed.

(** The fall: with a velocity that is not negative, [k] steps of gravity
    away from the ground limit at most, [k + 1] frames end the game. *)
Lemma fall_ends (k : nat) :
  forall w es,
    0 <= mouthVelY w ->
    groundLimit (canvas w) - mouthY w <= inject_Z (Z.of_nat k) * GRAVITY ->
    forallb isFrame es = true -> (S k <= List.length es)%nat ->
    isGameOver (run es w) = true.
Proof.
  induction k as [| k IH]; intros w es V D F L;
    (destruct es as [| e es]; [cbn in L; lia |]);
    cbn [forallb] in F; apply andb_true_iff in F as [Fe Fes];
    (destruct e as [ts r1 r2 | |]; try discriminate Fe);
    cbn [run step]; cbn [List.length] in L;
    (destruct (isGameOver w) eqn:H;
     [apply frames_keep_over; [now rewrite (gameLoop_over ts r1 r2 w H)
                              | exact Fes] |]);
    destruct (frame_physics ts r1 r2 w H)
      as (Ec & [O | [(Ev & Ey & A & B) | (Ev & Ey & A & B)]]);
    try (now apply frames_keep_over).
  - exfalso. change (inject_Z (Z.of_nat 0)) with 0 in D.
    unfold GRAVITY in *. lra.
  - exfalso. change (inject_Z (Z.of_nat 0)) with 0 in D.
    unfold GRAVITY in *. lra.
  - pose proof (inject_Z_succ k) as Sk.
    apply IH; [| | exact Fes | lia]; rewrite ?Ec, ?Ev, ?Ey;
      unfold GRAVITY in *; lra.
  - pose proof (inject_Z_succ k) as Sk.
    apply IH; [| | exact Fes | lia]; rewrite ?Ec, ?Ev, ?Ey;
      unfold GRAVITY in *; lra.
Qed.

(** The rise: [j] steps of gravity stop it, and the fall starts no lower
    than the rise can reach. *)
Lemma rise_ends (j k : nat) :
  forall w es,
    - mouthVelY w <= inject_Z (Z.of_nat j) * GRAVITY ->
    groundLimit (canvas w)
    - (mouthY w + inject_Z (Z.of_nat j) * Qmin 0 (mouthVelY w))
    <= inject_Z (Z.of_nat k) * GRAVITY ->
    forallb isFrame es = true -> (S (j + k) <= List.length es)%nat ->
    isGameOver (run es w) = true.
Proof.
  induction j as [| j IH]; intros w es V D F L.
  - change (inject_Z (Z.of_nat 0)) with 0 in V, D.
    apply (fall_ends k); [lra | lra | exact F | exact L].
  - pose proof (inject_Z_succ j) as Sj.
    pose proof (inject_Z_nat_nonneg j) as Pj.
    set (J := inject_Z (Z.of_nat j)) in *.
    set (J' := inject_Z (Z.of_nat (S j))) in *.
    destruct (Qlt_le_dec (mouthVelY w) 0) as [Vn | Vp].
    + assert (Mv : Qmin 0 (mouthVelY w) == mouthVelY w)
        by (apply Q.min_r; lra).
      rewrite Mv in D.
      destruct es as [| e es]; [cbn in L; lia |].
      cbn [forallb] in F. apply andb_true_iff in F as [Fe Fes].
      destruct e as [ts r1 r2 | |]; try discriminate Fe.
      cbn [run step]. cbn [List.length] in L.
      destruct (isGameOver w) eqn:H.
      { apply frames_keep_over; [| exact Fes].
        now rewrite (gameLoop_over ts r1 r2 w H). }
      destruct (frame_physics ts r1 r2 w H)
        as (Ec & [O | [(Ev & Ey & A & B) | (Ev & Ey & A & B)]]).
      * now apply frames_keep_over.
      * apply IH; [| | exact Fes | lia]; rewrite ?Ec, ?Ev, ?Ey;
          fold J; unfold GRAVITY in *; [lra |].
        pose proof (Q.le_min_l 0 (mouthVelY w + (9 # 20))) as M0.
        destruct (Q.min_spec 0 (mouthVelY w + (9 # 20)))
          as [[_ E] | [_ E]]; rewrite E; nra.
      * apply IH; [| | exact Fes | lia]; rewrite ?Ec, ?Ev, ?Ey;
          fold J; unfold GRAVITY in *; [nra |].
        change (Qmin 0 0) with 0. nra.
    + assert (Mv : Qmin 0 (mouthVelY w) == 0) by (apply Q.min_l; lra).
      rewrite Mv in D.
      apply (fall_ends k); [exact Vp | lra | exact F | lia].
Qed.

(** X2. A game left alone ends: whatever the position and the velocity
    of the player, any sequence of frames at least [framesToGround] long,
    without an input or a resize in between, ends with the game over, be
    it on the ground or on an obstacle met before. *)
Theorem game_left_alone_ends (w : World) (es : list Event) :
  forallb isFrame es = true ->
  (framesToGround w <= List.length es)%nat ->
  isGameOver (run es w) = true.
Proof.
  intros F L. unfold framesToGround in L. cbv zeta in L.
  apply (rise_ends (ticksFor (- mouthVelY w))
           (ticksFor (groundLimit (canvas w)
                      - (mouthY w
                         + inject_Z (Z.of_nat (ticksFor (- mouthVelY w)))
                           * Qmin 0 (mouthVelY w)))));
    [apply ticksFor_enough | apply ticksFor_enough | exact F | exact L].
Qed.

(** The player 8 above the ground limit, at rest: 19 frames are enough. *)
Lemma game_left_alone_ends_witness :
  forallb isFrame (map (fun n => Frame (inject_Z (Z.of_nat n) * 16) 0 0)
                     (seq 1 19)) = true
  /\ (framesToGround (playerWorld 1200 1080 0) <= 19)%nat
  /\ isGameOver
       (run (map (fun n => Frame (inject_Z (Z.of_nat n) * 16) 0 0)
               (seq 1 19)) (playerWorld 1200 1080 0)) = true.
Proof.
  assert (F : forallb isFrame
                (map (fun n => Frame (inject_Z (Z.of_nat n) * 16) 0 0)
                   (seq 1 19)) = true) by reflexivity.
  assert (L : (framesToGround (playerWorld 1200 1080 0) <= 19)%nat)
    by (apply Nat.leb_le; vm_compute; reflexivity).
  split; [exact F | split; [exact L |]].
  apply (game_left_alone_ends (playerWorld 1200 1080 0) _ F). exact L.
Defined.
